(** * EdgeConReduction: the reduction of the EdgeCon problem to SAT

    A shallow embedding of [src/EdgeConProblem/EdgeConReduction.c]: the
    variable naming scheme, the reduction context, the constraint builders
    phi_2 ... phi_8, the assembled formula and the model decoder, followed
    by the properties of the formula and of the decoder. *)

From Stdlib Require Import ZArith List String Ascii Bool Lia DecimalString.
From Stdlib Require DecimalZ DecimalPos DecimalFacts.
Import ListNotations.

Open Scope Z_scope.

(** ** C integers

    [int] and [unsigned int] are 32 bits wide.  Values are kept in [Z];
    conversions to [unsigned int] and unsigned arithmetic are reduced
    modulo [2^32] where the source performs them. *)

Definition to_uint (z : Z) : Z := z mod 2 ^ 32.

Definition INT_MAX : Z := 2 ^ 31 - 1.

(** The values taken by [x] in [for (int x = a; x < b; ++x)] when [b] is an
    [int]. *)
Definition for_int (a b : Z) : list Z :=
  map (fun d => a + Z.of_nat d) (seq 0 (Z.to_nat (b - a))).

(** The same loop when [b] is an [unsigned int]: [x] is converted to
    [unsigned int] for the comparison, so a negative start [a] is seen as
    [a + 2^32] and the loop runs while [x + 2^32 < b].  From a start
    [a >= 0] the loop visits [a .. b-1] (for [b > INT_MAX + 1] the counter
    of the C loop would overflow). *)
Definition for_uint (a b : Z) : list Z :=
  if a <? 0 then for_int a (b - 2 ^ 32) else for_int a b.

(** Filling a local array through [arr[pos++] = e] inside nested loops: the
    array contents between [0] and [pos] are the list of written elements,
    in the order of the writes. *)
Definition loop {A : Type} (range : list Z) (body : Z -> list A) : list A :=
  flat_map body range.

Definition when {A : Type} (c : bool) (body : list A) : list A :=
  if c then body else [].

(** ** [printf] formatting *)

(** [%d] *)
Definition fmt_d (z : Z) : string := NilZero.string_of_int (Z.to_int z).

(** [snprintf(name, size, ...)] keeps at most [size - 1] characters. *)
Definition snprintf (size : nat) (s : string) : string :=
  substring 0 (size - 1) s.

(** ** The solver interface (Z3 and Z3Tools.h) *)

(** Expression trees over NOT / AND / OR with Boolean variables as leaves. *)
#[local] Set Warnings "-register-all".
Inductive Z3_ast : Type :=
| Z3_var (name : string)
| Z3_mk_false
| Z3_mk_not (a : Z3_ast)
| Z3_mk_and (args : list Z3_ast)
| Z3_mk_or (args : list Z3_ast).

(** Modelled from the spec: [mk_bool_var] of Z3Tools.h, "createVariable(name)
    -> VarHandle (memoized by name)": the handle is determined by the name. *)
Definition mk_bool_var (name : string) : Z3_ast := Z3_var name.

(** A model gives a truth value to every variable name. *)
Definition Z3_model : Type := string -> bool.

(** Truth value of an expression in a model; an empty conjunction is true
    and an empty disjunction is false. *)
Fixpoint interp (model : Z3_model) (a : Z3_ast) : bool :=
  match a with
  | Z3_var name => model name
  | Z3_mk_false => false
  | Z3_mk_not b => negb (interp model b)
  | Z3_mk_and args => forallb (interp model) args
  | Z3_mk_or args => existsb (interp model) args
  end.

(** Modelled from the spec: [valueOfVarInModel] of Z3Tools.h,
    "modelValue(model, VarHandle) -> bool". *)
Definition valueOfVarInModel (model : Z3_model) (var : Z3_ast) : bool :=
  interp model var.

(** The variable handles occurring in an expression: the variables created
    while it was built. *)
Fixpoint vars (a : Z3_ast) : list Z3_ast :=
  match a with
  | Z3_var name => [Z3_var name]
  | Z3_mk_false => []
  | Z3_mk_not b => vars b
  | Z3_mk_and args => flat_map vars args
  | Z3_mk_or args => flat_map vars args
  end.

Definition satisfiable (a : Z3_ast) : Prop :=
  exists model, interp model a = true.

(** ** The graph interface (Graph.h and EdgeConGraph.h) *)

Record Graph : Type := {
  numNodes : Z;
  numEdges : Z;
  isEdge : Z -> Z -> bool
}.

(** The queries the reduction makes on an [EdgeConGraph]. *)
Record EdgeConGraph : Type := {
  getGraph : Graph;
  getNumComponents : Z;
  isNodeInComponent : Z -> Z -> bool
}.

(** ** Variable naming *)

Definition getVariableIsIthTranslator (node1 node2 number : Z) : Z3_ast :=
  let name :=
    if node1 <? node2 then
      snprintf 40 ("x_[(" ++ fmt_d node1 ++ "," ++ fmt_d node2 ++ "),"
                     ++ fmt_d number ++ "]")
    else
      snprintf 40 ("x_[(" ++ fmt_d node2 ++ "," ++ fmt_d node1 ++ "),"
                     ++ fmt_d number ++ "]")
  in mk_bool_var name.

Definition getVariableParent (child parent : Z) : Z3_ast :=
  let name :=
    snprintf 40 ("p_[" ++ fmt_d child ++ "," ++ fmt_d parent ++ "]")
  in mk_bool_var name.

Definition getVariableLevelInSpanningTree (level component : Z) : Z3_ast :=
  let name :=
    snprintf 40 ("l_[" ++ fmt_d component ++ "," ++ fmt_d level ++ "]")
  in mk_bool_var name.

(** The macros of the source. *)
Definition NOT (X : Z3_ast) : Z3_ast := Z3_mk_not X.
Definition AND (args : list Z3_ast) : Z3_ast := Z3_mk_and args.
Definition OR (args : list Z3_ast) : Z3_ast := Z3_mk_or args.

Definition X_ (n1 n2 i : Z) : Z3_ast := getVariableIsIthTranslator n1 n2 i.
Definition P_ (j1 j2 : Z) : Z3_ast := getVariableParent j1 j2.
Definition L_ (j h : Z) : Z3_ast := getVariableLevelInSpanningTree h j.

(** ** The reduction context *)

Record g_context_s : Type := {
  n : Z;                 (* unsigned int *)
  m : Z;                 (* unsigned int *)
  N : Z;                 (* unsigned int *)
  C_H : Z;               (* int *)
  k : Z;                 (* int *)
  G : Graph;
  graph : EdgeConGraph
}.

Definition init_g_context (graph : EdgeConGraph) (cost : Z) : g_context_s :=
  let G := getGraph graph in
  let C_H := getNumComponents graph in
  {| graph := graph;
     G := G;
     n := to_uint (numNodes G);
     m := to_uint (numEdges G);
     C_H := C_H;
     N := to_uint (C_H - 1);
     k := cost |}.

(** ** The constraint builders *)

Section Builders.

Variable ctx : g_context_s.

(** *** phi_2: translators *)

Definition phi_2_1_len : Z :=
  to_uint (N ctx * to_uint (to_uint (m ctx * m ctx) - 1)).

Definition phi_2_1 : list Z3_ast :=
  loop (for_uint 0 (N ctx)) (fun i =>
  loop (for_uint 0 (n ctx)) (fun e1 =>
  loop (for_uint (e1 + 1) (n ctx)) (fun e2 =>
  when (isEdge (G ctx) e1 e2) (
    loop (for_uint 0 (n ctx)) (fun f1 =>
    loop (for_uint (f1 + 1) (n ctx)) (fun f2 =>
    when ((negb (e1 =? f1) || negb (e2 =? f2)) && isEdge (G ctx) f1 f2)
      [ OR [ NOT (X_ e1 e2 i); NOT (X_ f1 f2 i) ] ])))))).

Definition build_phi_2_1 : Z3_ast := Z3_mk_and phi_2_1.

Definition phi_2_2_len : Z :=
  to_uint (m ctx * (to_uint (N ctx * N ctx) / 2)).

Definition phi_2_2 : list Z3_ast :=
  loop (for_uint 0 (n ctx)) (fun e1 =>
  loop (for_uint (e1 + 1) (n ctx)) (fun e2 =>
  when (isEdge (G ctx) e1 e2) (
    loop (for_uint 0 (N ctx)) (fun i =>
    loop (for_uint (i + 1) (N ctx)) (fun j =>
      [ OR [ NOT (X_ e1 e2 i); NOT (X_ e1 e2 j) ] ]))))).

Definition build_phi_2_2 : Z3_ast := Z3_mk_and phi_2_2.

Definition build_phi_2 : Z3_ast := AND [ build_phi_2_1; build_phi_2_2 ].

(** *** phi_3: parents *)

Definition phi_3_1_disj (j : Z) : list Z3_ast :=
  loop (for_int 0 (C_H ctx)) (fun j1 =>
  when (negb (j =? j1)) [ P_ j j1 ]).

Definition phi_3_1 : list Z3_ast :=
  loop (for_int 1 (C_H ctx)) (fun j => [ Z3_mk_or (phi_3_1_disj j) ]).

Definition build_phi_3_1 : Z3_ast := Z3_mk_and phi_3_1.

(** The array length is computed on [int]: no reduction modulo [2^32]. *)
Definition phi_3_2_len : Z :=
  (C_H ctx - 1) * (C_H ctx - 1) * (C_H ctx - 1).

Definition phi_3_2 : list Z3_ast :=
  loop (for_int 1 (C_H ctx)) (fun j =>
  loop (for_int 0 (C_H ctx - 1)) (fun j1 =>
  when (negb (j1 =? j)) (
    loop (for_int (j1 + 1) (C_H ctx)) (fun j2 =>
    when (negb (j2 =? j))
      [ OR [ NOT (P_ j j1); NOT (P_ j j2) ] ])))).

Definition build_phi_3_2 : Z3_ast := Z3_mk_and phi_3_2.

Definition build_phi_3 : Z3_ast := AND [ build_phi_3_1; build_phi_3_2 ].

(** *** phi_4: levels *)

Definition phi_4_1_disj (i : Z) : list Z3_ast :=
  loop (for_uint 0 (N ctx)) (fun n => [ L_ i n ]).

Definition phi_4_1 : list Z3_ast :=
  loop (for_int 0 (C_H ctx)) (fun i => [ Z3_mk_or (phi_4_1_disj i) ]).

Definition build_phi_4_1 : Z3_ast := Z3_mk_and phi_4_1.

Definition phi_4_2_len : Z :=
  to_uint (to_uint (C_H ctx) * (to_uint (N ctx * N ctx) / 2)).

Definition phi_4_2 : list Z3_ast :=
  loop (for_int 0 (C_H ctx)) (fun i =>
  loop (for_uint 0 (N ctx)) (fun n =>
  loop (for_uint (n + 1) (N ctx)) (fun n_prime =>
    [ OR [ NOT (L_ i n); NOT (L_ i n_prime) ] ]))).

Definition build_phi_4_2 : Z3_ast := Z3_mk_and phi_4_2.

Definition build_phi_4 : Z3_ast := AND [ build_phi_4_1; build_phi_4_2 ].

(** *** phi_5: depth *)

Definition phi_5 : list Z3_ast :=
  loop (for_int 0 (C_H ctx)) (fun i =>
  loop (for_uint (k ctx) (N ctx)) (fun n => [ L_ n i ])).

Definition build_phi_5 : Z3_ast := Z3_mk_or phi_5.

(** *** phi_6, phi_7, phi_8: parents, edges and levels *)

Definition phi_6 (j1 j2 : Z) : list Z3_ast :=
  loop (for_uint 0 (n ctx)) (fun u =>
  loop (for_uint (u + 1) (n ctx)) (fun v =>
  when (isEdge (G ctx) u v
        && isNodeInComponent (graph ctx) v j1
        && isNodeInComponent (graph ctx) u j2) (
    loop (for_uint 0 (N ctx)) (fun i => [ X_ u v i ])))).

Definition build_phi_6 (j1 j2 : Z) : Z3_ast :=
  if 0 =? Z.of_nat (List.length (phi_6 j1 j2)) then Z3_mk_false
  else Z3_mk_or (phi_6 j1 j2).

Definition phi_7 (j1 j2 : Z) : list Z3_ast :=
  loop (for_uint 1 (N ctx)) (fun h =>
    [ OR [ NOT (L_ j1 h); L_ j2 (h - 1) ] ]).

Definition build_phi_7 (j1 j2 : Z) : Z3_ast := Z3_mk_and (phi_7 j1 j2).

Definition phi_8 : list Z3_ast :=
  loop (for_int 0 (C_H ctx)) (fun j1 =>
  loop (for_int 0 (C_H ctx)) (fun j2 =>
  when (negb (j1 =? j2)) (
    let not_p_j1_j2 := NOT (P_ j1 j2) in
    [ AND [ OR [ not_p_j1_j2; build_phi_6 j1 j2 ];
            OR [ not_p_j1_j2; build_phi_7 j1 j2 ] ] ]))).

Definition build_phi_8 : Z3_ast := Z3_mk_and phi_8.

End Builders.

(** ** Formula assembly *)

Definition EdgeConReduction (edgeGraph : EdgeConGraph) (cost : Z) : Z3_ast :=
  let ctx := init_g_context edgeGraph cost in
  AND [ build_phi_2 ctx;
        build_phi_3 ctx;
        build_phi_4 ctx;
        build_phi_5 ctx;
        build_phi_8 ctx ].

(** ** The model decoder *)

(** The decoder mutates the graph through two operations of EdgeConGraph.h.
    The calls are recorded in the order in which they are made; the queries
    [getGraph], [getNumComponents] and [isEdge] are not changed by marking
    an edge as a translator. *)
Inductive graph_call : Type :=
| AddTranslator (n1 n2 : Z)
| ComputesHomogeneousComponents.

Definition Mut (A : Type) : Type := list graph_call -> A * list graph_call.

Definition ret {A : Type} (a : A) : Mut A := fun log => (a, log).

Definition bind {A B : Type} (c : Mut A) (f : A -> Mut B) : Mut B :=
  fun log => let (a, log') := c log in f a log'.

Notation "c1 ;; c2" := (bind c1 (fun _ => c2))
  (at level 61, right associativity).

(** Modelled from the spec: [addTranslator] of EdgeConGraph.h,
    "addTranslatorEdge(u,v) (mutator)"; the call is appended to the log. *)
Definition addTranslator (n1 n2 : Z) : Mut unit :=
  fun log => (tt, log ++ [AddTranslator n1 n2])%list.

(** Modelled from the spec: [computesHomogeneousComponents] of
    EdgeConGraph.h, "recomputeHomogeneousComponents() (mutator, triggered
    post-decode)"; the call is appended to the log. *)
Definition computesHomogeneousComponents : Mut unit :=
  fun log => (tt, log ++ [ComputesHomogeneousComponents])%list.

Fixpoint for_each (range : list Z) (body : Z -> Mut unit) : Mut unit :=
  match range with
  | [] => ret tt
  | x :: range' => body x ;; for_each range' body
  end.

Definition if_ (c : bool) (body : Mut unit) : Mut unit :=
  if c then body else ret tt.

Definition is_the_ith_translator
  (model : Z3_model) (graph : EdgeConGraph) (n1 n2 i : Z) : bool :=
  valueOfVarInModel model (getVariableIsIthTranslator n1 n2 i).

Definition getTranslatorSetFromModel
  (model : Z3_model) (graph : EdgeConGraph) : Mut unit :=
  let n := numNodes (getGraph graph) in
  let N := getNumComponents graph - 1 in
  for_each (for_int 0 n) (fun n1 =>
  for_each (for_int (n1 + 1) n) (fun n2 =>
  if_ (isEdge (getGraph graph) n1 n2) (
    for_each (for_int 0 N) (fun i =>
    if_ (is_the_ith_translator model graph n1 n2 i)
      (addTranslator n1 n2))))) ;;
  computesHomogeneousComponents.

(** ** Concrete instances *)

(** The path 0 - 1 - 2 - 3 with the homogeneous components [{0}], [{1}] and
    [{2,3}]: [C_H = 3] and [N = 2]. *)
Definition path4_Graph : Graph :=
  {| numNodes := 4;
     numEdges := 3;
     isEdge := fun u v => (Z.abs (u - v) =? 1) && (0 <=? Z.min u v)
                          && (Z.max u v <=? 3) |}.

Definition path4 : EdgeConGraph :=
  {| getGraph := path4_Graph;
     getNumComponents := 3;
     isNodeInComponent := fun node component =>
       match component with
       | 0 => node =? 0
       | 1 => node =? 1
       | 2 => (node =? 2) || (node =? 3)
       | _ => false
       end |}.

(** The model in which exactly the listed variables are true. *)
Definition model_of (true_names : list string) : Z3_model :=
  fun name => existsb (String.eqb name) true_names.

(** Component 1 hangs below component 0 through the edge (0,1), component 2
    below component 1 through the edge (1,2); every component is at
    level 0. *)
Definition model_flat : Z3_model :=
  model_of [ "x_[(0,1),0]"; "x_[(1,2),1]"; "p_[1,0]"; "p_[2,1]";
             "l_[0,0]"; "l_[1,0]"; "l_[2,0]" ]%string.

(** The same tree with component 2 at level 1. *)
Definition model_chain : Z3_model :=
  model_of [ "x_[(0,1),0]"; "x_[(1,2),1]"; "p_[1,0]"; "p_[2,1]";
             "l_[0,0]"; "l_[1,0]"; "l_[2,1]" ]%string.

(** [model_flat] with, in addition, the variable of component 1 at
    level 2. *)
Definition model_extra : Z3_model :=
  model_of [ "x_[(0,1),0]"; "x_[(1,2),1]"; "p_[1,0]"; "p_[2,1]";
             "l_[0,0]"; "l_[1,0]"; "l_[2,0]"; "l_[1,2]" ]%string.

(** ** Vocabulary of the statements *)

(** [(e1, e2)] is an edge of the graph, written with its smaller end
    first, as the loops of the builders scan it. *)
Definition existing_edge (ctx : g_context_s) (e1 e2 : Z) : Prop :=
  0 <= e1 < e2 /\ e2 < n ctx /\ isEdge (G ctx) e1 e2 = true.

Definition is_component (ctx : g_context_s) (j : Z) : Prop :=
  0 <= j < C_H ctx.

(** Component [c] is given level [h], one of the levels [0 .. N-1]. *)
Definition has_level (ctx : g_context_s) (model : Z3_model) (c h : Z) : Prop :=
  0 <= h < N ctx /\ valueOfVarInModel model (L_ c h) = true.

(** The edge [(u, v)], [u < v], goes from component [j2] into component
    [j1]: the test of [build_phi_6]. *)
Definition crossing_edge (ctx : g_context_s) (j1 j2 u v : Z) : Prop :=
  existing_edge ctx u v /\
  isNodeInComponent (graph ctx) v j1 = true /\
  isNodeInComponent (graph ctx) u j2 = true.

(** Equality test on the calls made on the graph, and the number of
    occurrences of a call in a log. *)
Definition graph_call_eqb (c1 c2 : graph_call) : bool :=
  match c1, c2 with
  | AddTranslator a b, AddTranslator a' b' => (a =? a') && (b =? b')
  | ComputesHomogeneousComponents, ComputesHomogeneousComponents => true
  | _, _ => false
  end.

Definition count_calls (c : graph_call) (log : list graph_call) : nat :=
  List.length (filter (graph_call_eqb c) log).

(** The translator identities [0 .. N-1] that a model sets true on the edge
    [(n1, n2)]. *)
Definition identities_on_edge
  (model : Z3_model) (g : EdgeConGraph) (n1 n2 : Z) : list Z :=
  filter (fun i => valueOfVarInModel model (X_ n1 n2 i))
         (for_int 0 (getNumComponents g - 1)).

(** The existing edges, smaller end first, in the order in which the
    builders scan them. *)
Definition edges (ctx : g_context_s) : list (Z * Z) :=
  loop (for_uint 0 (n ctx)) (fun e1 =>
  loop (for_uint (e1 + 1) (n ctx)) (fun e2 =>
  when (isEdge (G ctx) e1 e2) [ (e1, e2) ])).

(** None of the four array lengths is reduced modulo [2^32], and the
    length of the array of phi_3_2 is an [int]. *)
Definition lengths_do_not_wrap (ctx : g_context_s) : Prop :=
  m ctx * m ctx < 2 ^ 32 /\
  N ctx * (m ctx * m ctx - 1) < 2 ^ 32 /\
  N ctx * N ctx < 2 ^ 32 /\
  m ctx * (N ctx * N ctx / 2) < 2 ^ 32 /\
  C_H ctx * (N ctx * N ctx / 2) < 2 ^ 32 /\
  (C_H ctx - 1) * (C_H ctx - 1) * (C_H ctx - 1) <= INT_MAX.

(** A graph with 514 nodes and 65537 edges: every node of [0 .. 255] is
    joined to every node of [256 .. 511], and 512 is joined to 513.  It has
    two homogeneous components. *)
Definition bipartite_Graph : Graph :=
  {| numNodes := 514;
     numEdges := 65537;
     isEdge := fun u v =>
       let a := Z.min u v in
       let b := Z.max u v in
       ((0 <=? a) && (a <? 256) && (256 <=? b) && (b <? 512))
       || ((a =? 512) && (b =? 513)) |}.

Definition bipartite : EdgeConGraph :=
  {| getGraph := bipartite_Graph;
     getNumComponents := 2;
     isNodeInComponent := fun node component =>
       match component with
       | 0 => (0 <=? node) && (node <? 512)
       | 1 => (512 <=? node) && (node <? 514)
       | _ => false
       end |}.

(** Two nodes joined by an edge, one component each: [C_H = 2]. *)
Definition pair2 : EdgeConGraph :=
  {| getGraph := {| numNodes := 2; numEdges := 1;
                    isEdge := fun u v => ((u =? 0) && (v =? 1))
                                         || ((u =? 1) && (v =? 0)) |};
     getNumComponents := 2;
     isNodeInComponent := fun node component => node =? component |}.

(** ** Vocabulary for the variable names *)

(** The values of type [int]. *)
Definition is_int (z : Z) : Prop := - 2 ^ 31 <= z <= INT_MAX.

(** The character [c] occurs in the string [s]. *)
Fixpoint occurs (c : ascii) (s : string) : Prop :=
  match s with
  | EmptyString => False
  | String a s' => a = c \/ occurs c s'
  end.

Definition is_digit (c : ascii) : bool :=
  existsb (Ascii.eqb c) (list_ascii_of_string "0123456789").

(** The variables that the loops of the builders ask for: an X variable
    for an existing edge and an identity of [0 .. N-1], a Parent variable
    for two distinct components, a Level variable for a component and a
    level of [0 .. N-1], and the Level variables [L_(n, i)] of phi_5. *)
Definition reduction_variable (ctx : g_context_s) (v : Z3_ast) : Prop :=
  (exists e1 e2 i,
      existing_edge ctx e1 e2 /\ 0 <= i < N ctx /\ v = X_ e1 e2 i) \/
  (exists j1 j2,
      is_component ctx j1 /\ is_component ctx j2 /\ j1 <> j2 /\
      v = P_ j1 j2) \/
  (exists c h, is_component ctx c /\ 0 <= h < N ctx /\ v = L_ c h) \/
  (exists n i,
      In n (for_uint (k ctx) (N ctx)) /\ is_component ctx i /\ v = L_ n i).

(** ** The lengths of the other local arrays

    The declared lengths of the arrays of phi_3_1, phi_4_1, phi_5, phi_6,
    phi_7 and phi_8, computed with the types of the source: [int] for
    [C_H], [unsigned int] as soon as [N] or [m] takes part. *)

Definition phi_3_1_len (ctx : g_context_s) : Z := C_H ctx.

Definition phi_3_1_disj_len (ctx : g_context_s) : Z := C_H ctx.

Definition phi_4_1_len (ctx : g_context_s) : Z := C_H ctx.

Definition phi_4_1_disj_len (ctx : g_context_s) : Z := N ctx.

Definition phi_5_len (ctx : g_context_s) : Z :=
  to_uint (to_uint (C_H ctx)
           * (if N ctx <=? to_uint (k ctx) then N ctx
              else to_uint (N ctx - to_uint (k ctx)))).

Definition phi_6_len (ctx : g_context_s) : Z := to_uint (m ctx * N ctx).

Definition phi_7_len (ctx : g_context_s) : Z := N ctx.

Definition phi_8_len (ctx : g_context_s) : Z := C_H ctx * C_H ctx.

(** A graph whose sizes are values of type [int], with at least one
    component. *)
Definition well_sized (g : EdgeConGraph) : Prop :=
  0 <= numNodes (getGraph g) <= INT_MAX /\
  1 <= getNumComponents g <= INT_MAX.

(** The calls made by the decoder on a graph that has received none. *)
Definition decoder_calls (model : Z3_model) (g : EdgeConGraph)
  : list graph_call :=
  snd (getTranslatorSetFromModel model g []).

(** * Properties *)

(** ** Loops and clause lists *)

Lemma in_for_int (a b x : Z) : In x (for_int a b) <-> a <= x < b.
Proof.
  unfold for_int. rewrite in_map_iff. split.
  - intros [d [<- Hd]]. apply in_seq in Hd. lia.
  - intros Hx. exists (Z.to_nat (x - a)). split; [lia|].
    apply in_seq. lia.
Qed.

Lemma in_for_uint (a b x : Z) :
  0 <= a -> (In x (for_uint a b) <-> a <= x < b).
Proof.
  intros Ha. unfold for_uint.
  destruct (Z.ltb_spec a 0); [lia|]. apply in_for_int.
Qed.

Lemma for_int_empty (a b : Z) : b <= a -> for_int a b = [].
Proof.
  intros H. unfold for_int. replace (Z.to_nat (b - a)) with 0%nat by lia.
  reflexivity.
Qed.

Lemma for_int_cons (a b : Z) : a < b -> for_int a b = a :: for_int (a + 1) b.
Proof.
  intros H. unfold for_int.
  replace (Z.to_nat (b - a)) with (S (Z.to_nat (b - (a + 1)))) by lia.
  cbn [seq map]. f_equal; [lia|].
  rewrite <- seq_shift, map_map. apply map_ext. intros d. lia.
Qed.

Lemma in_loop {A : Type} (range : list Z) (body : Z -> list A) (c : A) :
  In c (loop range body) <-> exists x, In x range /\ In c (body x).
Proof. unfold loop. apply in_flat_map. Qed.

Lemma in_when {A : Type} (b : bool) (body : list A) (c : A) :
  In c (when b body) <-> b = true /\ In c body.
Proof.
  unfold when. destruct b; simpl; intuition congruence.
Qed.

Lemma interp_and_in (model : Z3_model) (args : list Z3_ast) (c : Z3_ast) :
  interp model (Z3_mk_and args) = true -> In c args -> interp model c = true.
Proof.
  simpl. intros H Hin. rewrite forallb_forall in H. auto.
Qed.

Lemma interp_or_ex (model : Z3_model) (args : list Z3_ast) :
  interp model (Z3_mk_or args) = true ->
  exists c, In c args /\ interp model c = true.
Proof. simpl. intros H. apply existsb_exists in H. exact H. Qed.

(** A clause [(not a) or (not b)] forbids [a] and [b] to be true together. *)
Lemma interp_exclusion (model : Z3_model) (a b : Z3_ast) :
  interp model (OR [ NOT a; NOT b ]) = true ->
  ~ (interp model a = true /\ interp model b = true).
Proof.
  simpl. intros H [Ha Hb]. rewrite Ha, Hb in H. discriminate.
Qed.

(** A clause [(not a) or b] is the implication from [a] to [b]. *)
Lemma interp_implication (model : Z3_model) (a b : Z3_ast) :
  interp model (OR [ NOT a; b ]) = true ->
  interp model a = true -> interp model b = true.
Proof.
  simpl. intros H Ha. rewrite Ha in H. simpl in H.
  destruct (interp model b); [reflexivity | discriminate].
Qed.

(** The five conjuncts of the assembled formula. *)
Lemma EdgeConReduction_conjuncts (model : Z3_model) (g : EdgeConGraph) (cost : Z) :
  interp model (EdgeConReduction g cost) = true ->
  let ctx := init_g_context g cost in
  interp model (build_phi_2_1 ctx) = true /\
  interp model (build_phi_2_2 ctx) = true /\
  interp model (build_phi_3_1 ctx) = true /\
  interp model (build_phi_3_2 ctx) = true /\
  interp model (build_phi_4_1 ctx) = true /\
  interp model (build_phi_4_2 ctx) = true /\
  interp model (build_phi_5 ctx) = true /\
  interp model (build_phi_8 ctx) = true.
Proof.
  intros H ctx. unfold EdgeConReduction, AND in H. fold ctx in H.
  assert (Hc : forall c, In c [build_phi_2 ctx; build_phi_3 ctx;
                               build_phi_4 ctx; build_phi_5 ctx;
                               build_phi_8 ctx] -> interp model c = true)
    by (intros c; apply interp_and_in; exact H).
  assert (H2 := Hc (build_phi_2 ctx)). assert (H3 := Hc (build_phi_3 ctx)).
  assert (H4 := Hc (build_phi_4 ctx)).
  unfold build_phi_2, build_phi_3, build_phi_4, AND in H2, H3, H4.
  repeat split;
    try (apply Hc; simpl; tauto);
    try (eapply interp_and_in; [apply H2 | ]; simpl; tauto);
    try (eapply interp_and_in; [apply H3 | ]; simpl; tauto);
    try (eapply interp_and_in; [apply H4 | ]; simpl; tauto).
Qed.

(** Membership in a clause list built by nested loops: [enter x] goes
    through one loop at the iteration [x], [pass] through one test. *)
Ltac enter x :=
  apply in_loop; exists x; split;
  [ first [ apply in_for_int | apply in_for_uint; [lia|] ]; lia | ].

Ltac pass :=
  apply in_when; split;
  [ first [ eassumption
          | rewrite ?andb_true_iff, ?negb_true_iff, ?Z.eqb_neq;
            repeat split; (eassumption || lia) ] | ].

Ltac here := simpl; left; reflexivity.

(** ** phi_2: the translator assignment *)

Lemma phi_2_1_in (ctx : g_context_s) (i e1 e2 f1 f2 : Z) :
  0 <= i < N ctx ->
  existing_edge ctx e1 e2 -> existing_edge ctx f1 f2 ->
  (e1, e2) <> (f1, f2) ->
  In (OR [ NOT (X_ e1 e2 i); NOT (X_ f1 f2 i) ]) (phi_2_1 ctx).
Proof.
  intros Hi (He & He' & HeE) (Hf & Hf' & HfE) Hne. unfold phi_2_1.
  assert (Hc : (negb (e1 =? f1) || negb (e2 =? f2)) && isEdge (G ctx) f1 f2
               = true).
  { rewrite HfE, andb_true_r.
    destruct (Z.eqb_spec e1 f1), (Z.eqb_spec e2 f2); simpl; try reflexivity.
    subst. congruence. }
  enter i. enter e1. enter e2. pass. enter f1. enter f2. pass. here.
Qed.

Lemma phi_2_2_in (ctx : g_context_s) (e1 e2 i j : Z) :
  existing_edge ctx e1 e2 -> 0 <= i -> i < j -> j < N ctx ->
  In (OR [ NOT (X_ e1 e2 i); NOT (X_ e1 e2 j) ]) (phi_2_2 ctx).
Proof.
  intros (He & He' & HeE) Hi Hij Hj. unfold phi_2_2.
  enter e1. enter e2. pass. enter i. enter j. here.
Qed.

(** C4. In a model of the formula the X variables describe a partial
    injective assignment of translators to edges: a translator identity is
    never true on two distinct existing edges, and an existing edge never
    carries two distinct translator identities. *)
Theorem translator_assignment_partial_injective
  (model : Z3_model) (g : EdgeConGraph) (cost : Z) (i j e1 e2 f1 f2 : Z) :
  let ctx := init_g_context g cost in
  interp model (EdgeConReduction g cost) = true ->
  0 <= i < N ctx -> 0 <= j < N ctx ->
  existing_edge ctx e1 e2 -> existing_edge ctx f1 f2 ->
  ((e1, e2) <> (f1, f2) ->
   ~ (valueOfVarInModel model (X_ e1 e2 i) = true /\
      valueOfVarInModel model (X_ f1 f2 i) = true)) /\
  (i <> j ->
   ~ (valueOfVarInModel model (X_ e1 e2 i) = true /\
      valueOfVarInModel model (X_ e1 e2 j) = true)).
Proof.
  intros ctx Hsat Hi Hj He Hf.
  destruct (EdgeConReduction_conjuncts _ _ _ Hsat) as (H21 & H22 & _).
  fold ctx in H21, H22. split.
  - intros Hne. apply interp_exclusion.
    apply (interp_and_in _ _ _ H21). now apply phi_2_1_in.
  - intros Hne. unfold valueOfVarInModel.
    destruct (Z.lt_total i j) as [Hlt | [Heq | Hgt]]; [ | contradiction | ].
    + apply interp_exclusion. apply (interp_and_in _ _ _ H22).
      apply phi_2_2_in; auto; lia.
    + intros [Ha Hb].
      apply (interp_exclusion model (X_ e1 e2 j) (X_ e1 e2 i)); [|split; auto].
      apply (interp_and_in _ _ _ H22). apply phi_2_2_in; auto; lia.
Qed.

(** ** phi_3: the parent of a component *)

Lemma phi_3_1_in (ctx : g_context_s) (j : Z) :
  1 <= j < C_H ctx -> In (Z3_mk_or (phi_3_1_disj ctx j)) (phi_3_1 ctx).
Proof. intros Hj. unfold phi_3_1. enter j. here. Qed.

Lemma phi_3_1_disj_inv (ctx : g_context_s) (j : Z) (c : Z3_ast) :
  In c (phi_3_1_disj ctx j) ->
  exists j1, 0 <= j1 < C_H ctx /\ j1 <> j /\ c = P_ j j1.
Proof.
  unfold phi_3_1_disj. intros H.
  apply in_loop in H. destruct H as (j1 & Hj1 & H).
  apply in_for_int in Hj1. apply in_when in H. destruct H as [Hne H].
  apply negb_true_iff, Z.eqb_neq in Hne.
  destruct H as [<- | []]. exists j1. auto.
Qed.

Lemma phi_3_2_in (ctx : g_context_s) (j j1 j2 : Z) :
  1 <= j < C_H ctx -> 0 <= j1 -> j1 < j2 -> j2 < C_H ctx ->
  j1 <> j -> j2 <> j ->
  In (OR [ NOT (P_ j j1); NOT (P_ j j2) ]) (phi_3_2 ctx).
Proof.
  intros Hj H1 H12 H2 Hn1 Hn2. unfold phi_3_2.
  enter j. enter j1. pass. enter j2. pass. here.
Qed.

(** C5. In a model of the formula every component other than the root has
    exactly one parent among the other components. *)
Theorem non_root_component_has_exactly_one_parent
  (model : Z3_model) (g : EdgeConGraph) (cost : Z) (j : Z) :
  let ctx := init_g_context g cost in
  interp model (EdgeConReduction g cost) = true ->
  1 <= j < C_H ctx ->
  exists j1,
    (is_component ctx j1 /\ j1 <> j /\
     valueOfVarInModel model (P_ j j1) = true) /\
    forall j2, is_component ctx j2 -> j2 <> j ->
      valueOfVarInModel model (P_ j j2) = true -> j2 = j1.
Proof.
  intros ctx Hsat Hj.
  destruct (EdgeConReduction_conjuncts _ _ _ Hsat) as (_ & _ & H31 & H32 & _).
  fold ctx in H31, H32.
  assert (Hor := interp_and_in _ _ _ H31 (phi_3_1_in ctx j Hj)).
  apply interp_or_ex in Hor. destruct Hor as (c & Hc & Htrue).
  apply phi_3_1_disj_inv in Hc. destruct Hc as (j1 & Hj1 & Hne & ->).
  exists j1. split; [unfold is_component; auto|].
  intros j2 Hj2 Hne2 Htrue2. unfold is_component in Hj2.
  destruct (Z.lt_total j2 j1) as [Hlt | [Heq | Hgt]]; [ | exact Heq | ];
    exfalso.
  - apply (interp_exclusion model (P_ j j2) (P_ j j1)); [|split; auto].
    apply (interp_and_in _ _ _ H32). apply phi_3_2_in; auto; lia.
  - apply (interp_exclusion model (P_ j j1) (P_ j j2)); [|split; auto].
    apply (interp_and_in _ _ _ H32). apply phi_3_2_in; auto; lia.
Qed.

(** ** phi_4: the level of a component *)

Lemma phi_4_1_in (ctx : g_context_s) (i : Z) :
  is_component ctx i -> In (Z3_mk_or (phi_4_1_disj ctx i)) (phi_4_1 ctx).
Proof. intros Hi. unfold is_component in Hi. unfold phi_4_1. enter i. here. Qed.

Lemma N_init_nonneg (g : EdgeConGraph) (cost : Z) :
  0 <= N (init_g_context g cost) < 2 ^ 32.
Proof. simpl. unfold to_uint. apply Z.mod_pos_bound. lia. Qed.

Lemma phi_4_1_disj_inv (ctx : g_context_s) (i : Z) (c : Z3_ast) :
  In c (phi_4_1_disj ctx i) -> exists h, 0 <= h < N ctx /\ c = L_ i h.
Proof.
  unfold phi_4_1_disj. intros H.
  apply in_loop in H. destruct H as (h & Hh & H).
  apply in_for_uint in Hh; [|lia].
  destruct H as [<- | []]. exists h. auto.
Qed.

Lemma phi_4_2_in (ctx : g_context_s) (i h h' : Z) :
  is_component ctx i -> 0 <= h -> h < h' -> h' < N ctx ->
  In (OR [ NOT (L_ i h); NOT (L_ i h') ]) (phi_4_2 ctx).
Proof.
  intros Hi H1 H12 H2. unfold is_component in Hi. unfold phi_4_2.
  enter i. enter h. enter h'. here.
Qed.

(** What phi_4 imposes: every component has a level among [0 .. N-1]. *)
Lemma component_has_a_level
  (model : Z3_model) (g : EdgeConGraph) (cost : Z) (c : Z) :
  let ctx := init_g_context g cost in
  interp model (EdgeConReduction g cost) = true ->
  is_component ctx c ->
  exists h, has_level ctx model c h.
Proof.
  intros ctx Hsat Hc.
  destruct (EdgeConReduction_conjuncts _ _ _ Hsat)
    as (_ & _ & _ & _ & H41 & _).
  fold ctx in H41.
  assert (Hor := interp_and_in _ _ _ H41 (phi_4_1_in ctx c Hc)).
  apply interp_or_ex in Hor. destruct Hor as (a & Ha & Htrue).
  apply phi_4_1_disj_inv in Ha. destruct Ha as (h & Hh & ->).
  exists h. split; assumption.
Qed.

(** ... and no component has two levels among [0 .. N-1]. *)
Lemma component_level_unique
  (model : Z3_model) (g : EdgeConGraph) (cost : Z) (c h h' : Z) :
  let ctx := init_g_context g cost in
  interp model (EdgeConReduction g cost) = true ->
  is_component ctx c ->
  has_level ctx model c h -> has_level ctx model c h' -> h = h'.
Proof.
  intros ctx Hsat Hc [Hh Ht] [Hh' Ht'].
  destruct (EdgeConReduction_conjuncts _ _ _ Hsat)
    as (_ & _ & _ & _ & _ & H42 & _).
  fold ctx in H42. unfold valueOfVarInModel in *.
  destruct (Z.lt_total h h') as [Hlt | [Heq | Hgt]]; [ | exact Heq | ];
    exfalso.
  - apply (interp_exclusion model (L_ c h) (L_ c h')); [|split; auto].
    apply (interp_and_in _ _ _ H42). apply phi_4_2_in; auto; lia.
  - apply (interp_exclusion model (L_ c h') (L_ c h)); [|split; auto].
    apply (interp_and_in _ _ _ H42). apply phi_4_2_in; auto; lia.
Qed.

(** ** Variable naming *)

(** C9. The name of an X variable, and so its handle, does not depend on
    the order in which the two ends of the edge are given. *)
Theorem getVariableIsIthTranslator_symmetric (n1 n2 i : Z) :
  getVariableIsIthTranslator n1 n2 i = getVariableIsIthTranslator n2 n1 i.
Proof.
  unfold getVariableIsIthTranslator.
  destruct (Z.ltb_spec n1 n2), (Z.ltb_spec n2 n1); try reflexivity; try lia.
  replace n2 with n1 by lia. reflexivity.
Qed.

(** ** phi_5: the depth bound *)

(** C7. When the depth bound is at least [N = C_H - 1] the disjunction phi_5
    is empty, and the assembled formula has no model. *)
Theorem EdgeConReduction_unsat_when_bound_reaches_N
  (g : EdgeConGraph) (cost : Z) :
  getNumComponents g - 1 <= cost ->
  phi_5 (init_g_context g cost) = [] /\
  ~ satisfiable (EdgeConReduction g cost).
Proof.
  intros Hk.
  assert (He : phi_5 (init_g_context g cost) = []).
  { unfold phi_5. cbn [C_H k N init_g_context].
    destruct (Z.le_gt_cases (getNumComponents g) 0) as [H0 | H0].
    - rewrite (for_int_empty 0) by lia. reflexivity.
    - assert (HN : to_uint (getNumComponents g - 1) <= cost).
      { unfold to_uint.
        pose proof (Z.mod_le (getNumComponents g - 1) (2 ^ 32)). lia. }
      unfold for_uint. destruct (Z.ltb_spec cost 0); [lia|].
      rewrite (for_int_empty cost) by lia.
      unfold loop. induction (for_int 0 (getNumComponents g)); auto. }
  split; [exact He|].
  intros [model Hsat].
  destruct (EdgeConReduction_conjuncts _ _ _ Hsat)
    as (_ & _ & _ & _ & _ & _ & H5 & _).
  unfold build_phi_5 in H5. rewrite He in H5. discriminate.
Qed.

(** ** phi_6, phi_7 and phi_8: parents, crossing edges and levels *)

Lemma phi_8_in (ctx : g_context_s) (j1 j2 : Z) :
  is_component ctx j1 -> is_component ctx j2 -> j1 <> j2 ->
  In (AND [ OR [ NOT (P_ j1 j2); build_phi_6 ctx j1 j2 ];
            OR [ NOT (P_ j1 j2); build_phi_7 ctx j1 j2 ] ]) (phi_8 ctx).
Proof.
  unfold is_component. intros H1 H2 Hne. unfold phi_8.
  enter j1. enter j2. pass. here.
Qed.

Lemma phi_6_inv (ctx : g_context_s) (j1 j2 : Z) (c : Z3_ast) :
  In c (phi_6 ctx j1 j2) ->
  exists u v i,
    crossing_edge ctx j1 j2 u v /\ 0 <= i < N ctx /\ c = X_ u v i.
Proof.
  unfold phi_6. intros H.
  apply in_loop in H. destruct H as (u & Hu & H).
  apply in_for_uint in Hu; [|lia].
  apply in_loop in H. destruct H as (v & Hv & H).
  apply in_for_uint in Hv; [|lia].
  apply in_when in H. destruct H as [Hc H].
  apply andb_true_iff in Hc. destruct Hc as [Hc Hu2].
  apply andb_true_iff in Hc. destruct Hc as [He Hv1].
  apply in_loop in H. destruct H as (i & Hi & H).
  apply in_for_uint in Hi; [|lia].
  destruct H as [<- | []].
  exists u, v, i. unfold crossing_edge, existing_edge.
  repeat split; auto; lia.
Qed.

Lemma phi_6_in (ctx : g_context_s) (j1 j2 u v i : Z) :
  crossing_edge ctx j1 j2 u v -> 0 <= i < N ctx ->
  In (X_ u v i) (phi_6 ctx j1 j2).
Proof.
  intros ((Hu & Hv & He) & Hv1 & Hu2) Hi. unfold phi_6.
  enter u. enter v.
  apply in_when. split; [rewrite He, Hv1, Hu2; reflexivity|].
  enter i. here.
Qed.

Lemma interp_build_phi_6 (model : Z3_model) (ctx : g_context_s) (j1 j2 : Z) :
  interp model (build_phi_6 ctx j1 j2)
  = existsb (interp model) (phi_6 ctx j1 j2).
Proof.
  unfold build_phi_6. destruct (phi_6 ctx j1 j2); reflexivity.
Qed.

Lemma phi_7_in (ctx : g_context_s) (j1 j2 h : Z) :
  1 <= h < N ctx ->
  In (OR [ NOT (L_ j1 h); L_ j2 (h - 1) ]) (phi_7 ctx j1 j2).
Proof. intros Hh. unfold phi_7. enter h. here. Qed.

(** What phi_8 imposes on a pair of distinct components whose Parent
    variable is true. *)
Lemma parent_consequences
  (model : Z3_model) (g : EdgeConGraph) (cost : Z) (j1 j2 : Z) :
  let ctx := init_g_context g cost in
  interp model (EdgeConReduction g cost) = true ->
  is_component ctx j1 -> is_component ctx j2 -> j1 <> j2 ->
  valueOfVarInModel model (P_ j1 j2) = true ->
  interp model (build_phi_6 ctx j1 j2) = true /\
  interp model (build_phi_7 ctx j1 j2) = true.
Proof.
  intros ctx Hsat H1 H2 Hne HP.
  destruct (EdgeConReduction_conjuncts _ _ _ Hsat)
    as (_ & _ & _ & _ & _ & _ & _ & H8).
  fold ctx in H8.
  assert (Hc := interp_and_in _ _ _ H8 (phi_8_in ctx j1 j2 H1 H2 Hne)).
  unfold AND in Hc. split.
  - eapply interp_implication; [|exact HP].
    apply (interp_and_in _ _ _ Hc). simpl. auto.
  - eapply interp_implication; [|exact HP].
    apply (interp_and_in _ _ _ Hc). simpl. auto.
Qed.

(** C3, as the code has it. If [P(j1,j2)] is true in a model of the formula,
    then some existing edge from [j2] into [j1] carries a translator
    identity, and a child [j1] at a level [h1 >= 1] has its parent [j2] one
    level above, at [h1 - 1]; when no existing edge goes from [j2] into
    [j1], phi_6 is the constant false and [P(j1,j2)] is false. *)
Theorem parent_has_translator_edge_and_level_above
  (model : Z3_model) (g : EdgeConGraph) (cost : Z) (j1 j2 : Z) :
  let ctx := init_g_context g cost in
  interp model (EdgeConReduction g cost) = true ->
  is_component ctx j1 -> is_component ctx j2 -> j1 <> j2 ->
  (valueOfVarInModel model (P_ j1 j2) = true ->
   (exists u v i,
       crossing_edge ctx j1 j2 u v /\ 0 <= i < N ctx /\
       valueOfVarInModel model (X_ u v i) = true) /\
   (forall h1 h2,
       has_level ctx model j1 h1 -> has_level ctx model j2 h2 ->
       1 <= h1 -> h2 = h1 - 1)) /\
  ((forall u v, ~ crossing_edge ctx j1 j2 u v) ->
   build_phi_6 ctx j1 j2 = Z3_mk_false /\
   valueOfVarInModel model (P_ j1 j2) = false).
Proof.
  intros ctx Hsat H1 H2 Hne. split.
  - intros HP.
    destruct (parent_consequences model g cost j1 j2 Hsat H1 H2 Hne HP)
      as [H6 H7].
    fold ctx in H6, H7. split.
    + rewrite interp_build_phi_6 in H6. apply existsb_exists in H6.
      destruct H6 as (c & Hc & Htrue).
      apply phi_6_inv in Hc. destruct Hc as (u & v & i & Hcross & Hi & ->).
      exists u, v, i. auto.
    + intros h1 h2 [Hh1 Ht1] Hl2 Hge.
      assert (Hup : has_level ctx model j2 (h1 - 1)).
      { split; [lia|]. unfold valueOfVarInModel in *.
        eapply interp_implication; [|exact Ht1].
        apply (interp_and_in _ _ _ H7). apply phi_7_in. lia. }
      exact (component_level_unique model g cost j2 _ _ Hsat H2 Hl2 Hup).
  - intros Hnone.
    assert (Hempty : phi_6 ctx j1 j2 = []).
    { destruct (phi_6 ctx j1 j2) as [|c l] eqn:E; [reflexivity|].
      assert (Hin : In c (phi_6 ctx j1 j2)) by (rewrite E; simpl; auto).
      apply phi_6_inv in Hin. destruct Hin as (u & v & i & Hcross & _).
      destruct (Hnone u v Hcross). }
    assert (Hfalse : build_phi_6 ctx j1 j2 = Z3_mk_false).
    { unfold build_phi_6. rewrite Hempty. reflexivity. }
    split; [exact Hfalse|].
    destruct (valueOfVarInModel model (P_ j1 j2)) eqn:HP; [|reflexivity].
    destruct (parent_consequences model g cost j1 j2 Hsat H1 H2 Hne HP)
      as [H6 _].
    fold ctx in H6. rewrite Hfalse in H6. discriminate.
Qed.

(** ** The children of the Parent variables *)

Lemma phi_3_2_inv (ctx : g_context_s) (c : Z3_ast) :
  In c (phi_3_2 ctx) ->
  exists j j1 j2,
    1 <= j < C_H ctx /\ is_component ctx j1 /\ is_component ctx j2 /\
    j1 <> j /\ j2 <> j /\ c = OR [ NOT (P_ j j1); NOT (P_ j j2) ].
Proof.
  unfold phi_3_2, is_component. intros H.
  apply in_loop in H. destruct H as (j & Hj & H). apply in_for_int in Hj.
  apply in_loop in H. destruct H as (j1 & Hj1 & H). apply in_for_int in Hj1.
  apply in_when in H. destruct H as [Hn1 H].
  apply in_loop in H. destruct H as (j2 & Hj2 & H). apply in_for_int in Hj2.
  apply in_when in H. destruct H as [Hn2 H].
  apply negb_true_iff, Z.eqb_neq in Hn1, Hn2.
  destruct H as [<- | []]. exists j, j1, j2. repeat split; auto; lia.
Qed.

Lemma vars_P_ (j1 j2 : Z) : vars (P_ j1 j2) = [ P_ j1 j2 ].
Proof. reflexivity. Qed.

(** C2, as the code has it. The Parent variables of phi_3 all have a child
    among the components [1 .. C_H-1], so the root is never their child;
    phi_8 creates [P(j1,j2)] for every ordered pair of distinct components,
    the pairs with child [0] included. *)
Theorem parent_variable_children
  (g : EdgeConGraph) (cost : Z) (v : Z3_ast) (j1 j2 : Z) :
  let ctx := init_g_context g cost in
  (In v (vars (build_phi_3 ctx)) ->
   exists j j', 1 <= j < C_H ctx /\ is_component ctx j' /\ j' <> j /\
                v = getVariableParent j j') /\
  (is_component ctx j1 -> is_component ctx j2 -> j1 <> j2 ->
   In (getVariableParent j1 j2) (vars (build_phi_8 ctx))).
Proof.
  intros ctx. split.
  - unfold build_phi_3, AND. cbn [vars flat_map]. rewrite app_nil_r.
    intros H. apply in_app_or in H. destruct H as [H | H].
    + unfold build_phi_3_1 in H. cbn [vars] in H.
      apply in_flat_map in H. destruct H as (c & Hc & H).
      unfold phi_3_1 in Hc.
      apply in_loop in Hc. destruct Hc as (j & Hj & Hc).
      apply in_for_int in Hj. destruct Hc as [<- | []].
      cbn [vars] in H. apply in_flat_map in H. destruct H as (a & Ha & H).
      apply phi_3_1_disj_inv in Ha. destruct Ha as (j' & Hj' & Hne & ->).
      rewrite vars_P_ in H. destruct H as [<- | []].
      exists j, j'. unfold is_component. auto.
    + unfold build_phi_3_2 in H. cbn [vars] in H.
      apply in_flat_map in H. destruct H as (c & Hc & H).
      apply phi_3_2_inv in Hc.
      destruct Hc as (j & j1' & j2' & Hj & H1 & H2 & Hn1 & Hn2 & ->).
      unfold OR, NOT in H. cbn [vars flat_map] in H.
      rewrite !vars_P_ in H. simpl in H.
      destruct H as [<- | [<- | []]]; [exists j, j1' | exists j, j2']; auto.
  - intros H1 H2 Hne. unfold build_phi_8. cbn [vars].
    apply in_flat_map. eexists. split; [apply (phi_8_in ctx j1 j2); auto|].
    unfold AND, OR, NOT. cbn [vars flat_map].
    apply in_or_app. left. apply in_or_app. left.
    fold (P_ j1 j2). rewrite vars_P_. simpl. auto.
Qed.

(** ** The model decoder *)

Lemma for_each_log (range : list Z) (body : Z -> Mut unit)
  (calls : Z -> list graph_call) :
  (forall x log, body x log = (tt, (log ++ calls x)%list)) ->
  forall log, for_each range body log = (tt, (log ++ loop range calls)%list).
Proof.
  intros Hbody. induction range as [|x range IH]; intros log.
  - simpl. unfold ret. now rewrite app_nil_r.
  - cbn [for_each]. unfold bind. rewrite Hbody, IH.
    unfold loop. cbn [flat_map]. now rewrite app_assoc.
Qed.

Lemma if_log (c : bool) (body : Mut unit) (calls : list graph_call) :
  (forall log, body log = (tt, (log ++ calls)%list)) ->
  forall log, if_ c body log = (tt, (log ++ when c calls)%list).
Proof.
  intros Hbody log. destruct c; simpl; [apply Hbody|].
  unfold ret. now rewrite app_nil_r.
Qed.

(** The calls to [addTranslator], in the order of the scan. *)
Lemma getTranslatorSetFromModel_log
  (model : Z3_model) (g : EdgeConGraph) (log : list graph_call) :
  snd (getTranslatorSetFromModel model g log)
  = (log
     ++ loop (for_int 0 (numNodes (getGraph g))) (fun n1 =>
        loop (for_int (n1 + 1) (numNodes (getGraph g))) (fun n2 =>
        when (isEdge (getGraph g) n1 n2) (
          loop (for_int 0 (getNumComponents g - 1)) (fun i =>
          when (is_the_ith_translator model g n1 n2 i)
            [ AddTranslator n1 n2 ]))))
     ++ [ ComputesHomogeneousComponents ])%list.
Proof.
  unfold getTranslatorSetFromModel, bind.
  rewrite for_each_log with (calls := fun n1 =>
    loop (for_int (n1 + 1) (numNodes (getGraph g))) (fun n2 =>
    when (isEdge (getGraph g) n1 n2) (
      loop (for_int 0 (getNumComponents g - 1)) (fun i =>
      when (is_the_ith_translator model g n1 n2 i)
        [ AddTranslator n1 n2 ])))).
  - unfold computesHomogeneousComponents. simpl. now rewrite app_assoc.
  - intros n1 log1. apply for_each_log. intros n2 log2.
    apply if_log. intros log3. apply for_each_log. intros i log4.
    apply if_log. intros log5. reflexivity.
Qed.

Lemma filter_loop {A : Type} (p : A -> bool) (range : list Z)
  (body : Z -> list A) :
  filter p (loop range body) = loop range (fun x => filter p (body x)).
Proof.
  unfold loop. induction range as [|x range IH]; simpl; [reflexivity|].
  now rewrite filter_app, IH.
Qed.

Lemma filter_when {A : Type} (p : A -> bool) (c : bool) (body : list A) :
  filter p (when c body) = when c (filter p body).
Proof. destruct c; reflexivity. Qed.

Lemma loop_ext {A : Type} (range : list Z) (f g : Z -> list A) :
  (forall x, In x range -> f x = g x) -> loop range f = loop range g.
Proof.
  unfold loop. induction range as [|x range IH]; intros H; simpl;
    [reflexivity|].
  rewrite H by (simpl; auto). f_equal. apply IH. intros; apply H; simpl; auto.
Qed.

Lemma loop_nil {A : Type} (range : list Z) :
  loop range (fun _ => @nil A) = [].
Proof. unfold loop. induction range; simpl; auto. Qed.

(** A loop whose body writes at one iteration only. *)
Lemma loop_point {A : Type} (a b x : Z) (body : Z -> list A) :
  (forall y, y <> x -> body y = []) ->
  loop (for_int a b) body = when ((a <=? x) && (x <? b)) (body x).
Proof.
  intros Hbody.
  remember (Z.to_nat (b - a)) as d eqn:Hd. revert a Hd.
  induction d as [|d IH]; intros a Hd.
  - rewrite for_int_empty by lia.
    destruct (Z.leb_spec a x), (Z.ltb_spec x b); try reflexivity; lia.
  - rewrite for_int_cons by lia. unfold loop. cbn [flat_map].
    fold (loop (for_int (a + 1) b) body). rewrite IH by lia.
    destruct (Z.eq_dec a x) as [-> | Hne].
    + destruct (Z.leb_spec x x), (Z.ltb_spec x b),
               (Z.leb_spec (x + 1) x); try lia.
      simpl. now rewrite app_nil_r.
    + rewrite (Hbody a Hne).
      destruct (Z.leb_spec a x), (Z.ltb_spec x b),
               (Z.leb_spec (a + 1) x); try reflexivity; lia.
Qed.

Lemma length_loop_filter {A : Type} (range : list Z) (p : Z -> bool)
  (c : Z -> A) :
  List.length (loop range (fun i => when (p i) [ c i ]))
  = List.length (filter p range).
Proof.
  unfold loop. induction range as [|x range IH]; simpl; [reflexivity|].
  destruct (p x); simpl; now rewrite IH.
Qed.

Lemma graph_call_eqb_add (a b a' b' : Z) :
  graph_call_eqb (AddTranslator a b) (AddTranslator a' b') = true
  <-> a = a' /\ b = b'.
Proof. simpl. rewrite andb_true_iff, !Z.eqb_eq. tauto. Qed.

(** C8. The decoder calls [addTranslator(graph, n1, n2)] once for every
    existing edge [n1 < n2] and every translator identity of [0 .. N-1]
    whose X variable is true in the model, makes no other call to
    [addTranslator], and then calls [computesHomogeneousComponents] once,
    as its last call. *)
Theorem getTranslatorSetFromModel_calls
  (model : Z3_model) (g : EdgeConGraph) (log : list graph_call) :
  exists adds,
    snd (getTranslatorSetFromModel model g log)
    = (log ++ adds ++ [ ComputesHomogeneousComponents ])%list /\
    count_calls ComputesHomogeneousComponents adds = 0%nat /\
    forall n1 n2,
      count_calls (AddTranslator n1 n2) adds
      = if (0 <=? n1) && (n1 <? n2) && (n2 <? numNodes (getGraph g))
           && isEdge (getGraph g) n1 n2
        then List.length (identities_on_edge model g n1 n2)
        else 0%nat.
Proof.
  eexists. split; [apply getTranslatorSetFromModel_log|]. split.
  - unfold count_calls. rewrite filter_loop.
    rewrite (loop_ext _ _ (fun _ => [])); [now rewrite loop_nil|].
    intros n1 _. rewrite filter_loop.
    rewrite (loop_ext _ _ (fun _ => [])); [now rewrite loop_nil|].
    intros n2 _. rewrite filter_when, filter_loop.
    rewrite (loop_ext _ _ (fun _ => [])).
    + rewrite loop_nil. now destruct (isEdge _ _ _).
    + intros i _. rewrite filter_when. simpl. now destruct (is_the_ith_translator _ _ _ _ _).
  - intros a b. unfold count_calls. rewrite filter_loop.
    set (numN := numNodes (getGraph g)).
    set (hits := fun n1 n2 : Z =>
      loop (for_int 0 (getNumComponents g - 1)) (fun i =>
        when (is_the_ith_translator model g n1 n2 i) [ AddTranslator n1 n2 ])).
    assert (Hother : forall n1 n2, (n1, n2) <> (a, b) ->
              filter (graph_call_eqb (AddTranslator a b)) (hits n1 n2) = []).
    { intros n1 n2 Hne. unfold hits. rewrite filter_loop.
      rewrite (loop_ext _ _ (fun _ => [])); [now rewrite loop_nil|].
      intros i _. rewrite filter_when. cbn [filter].
      destruct (graph_call_eqb (AddTranslator a b) (AddTranslator n1 n2))
        eqn:E; [|now destruct (is_the_ith_translator _ _ _ _ _)].
      apply graph_call_eqb_add in E. destruct E; subst. congruence. }
    assert (Hsame : filter (graph_call_eqb (AddTranslator a b)) (hits a b)
                    = hits a b).
    { unfold hits. rewrite filter_loop. apply loop_ext.
      intros i _. rewrite filter_when. cbn [filter].
      replace (graph_call_eqb (AddTranslator a b) (AddTranslator a b))
        with true; [reflexivity|].
      symmetry. apply graph_call_eqb_add. auto. }
    rewrite (loop_point 0 numN a).
    + rewrite filter_loop, (loop_point (a + 1) numN b).
      * rewrite filter_when. fold (hits a b). rewrite Hsame.
        destruct (Z.leb_spec 0 a), (Z.ltb_spec a numN),
                 (Z.leb_spec (a + 1) b), (Z.ltb_spec a b),
                 (Z.ltb_spec b numN), (isEdge (getGraph g) a b);
          simpl; try reflexivity; try lia.
        unfold hits, identities_on_edge. apply length_loop_filter.
      * intros n2 Hne. rewrite filter_when. fold (hits a n2).
        rewrite Hother by congruence. now destruct (isEdge _ _ _).
    + intros n1 Hne. rewrite filter_loop.
      rewrite (loop_ext _ _ (fun _ => [])); [now rewrite loop_nil|].
      intros n2 _. rewrite filter_when. fold (hits n1 n2).
      rewrite Hother by congruence. now destruct (isEdge _ _ _).
Qed.

(** ** The number of clauses written by the builders *)

Lemma for_uint_nonneg (a b : Z) : 0 <= a -> for_uint a b = for_int a b.
Proof. intros H. unfold for_uint. destruct (Z.ltb_spec a 0); [lia|auto]. Qed.

Lemma length_for_int (a b : Z) :
  Z.of_nat (List.length (for_int a b)) = Z.max 0 (b - a).
Proof. unfold for_int. rewrite length_map, length_seq. lia. Qed.

Lemma length_loop_cons {A : Type} (x : Z) (range : list Z)
  (body : Z -> list A) :
  List.length (loop (x :: range) body)
  = (List.length (body x) + List.length (loop range body))%nat.
Proof. unfold loop. cbn [flat_map]. apply length_app. Qed.

(** Two loops over the same range whose bodies have proportional lengths. *)
Lemma length_loop_scaled {A B : Type} (range : list Z)
  (f : Z -> list A) (g : Z -> list B) (c : nat) :
  (forall x, In x range ->
     List.length (f x) = (List.length (g x) * c)%nat) ->
  List.length (loop range f) = (List.length (loop range g) * c)%nat.
Proof.
  induction range as [|x range IH]; intros H; [reflexivity|].
  rewrite !length_loop_cons, (H x) by (simpl; auto).
  rewrite IH by (intros y Hy; apply H; simpl; auto). lia.
Qed.

Lemma length_loop_const {A : Type} (range : list Z) (f : Z -> list A)
  (c : nat) :
  (forall x, In x range -> List.length (f x) = c) ->
  List.length (loop range f) = (List.length range * c)%nat.
Proof.
  induction range as [|x range IH]; intros H; [reflexivity|].
  rewrite length_loop_cons, (H x) by (simpl; auto).
  rewrite IH by (intros y Hy; apply H; simpl; auto). reflexivity.
Qed.

(** The pairs [i < j] of a range: [d * (d - 1) / 2] of them. *)
Lemma length_pairs {A : Type} (a b : Z) (f : Z -> Z -> A) :
  a <= b ->
  2 * Z.of_nat (List.length
        (loop (for_int a b) (fun i =>
         loop (for_int (i + 1) b) (fun j => [ f i j ]))))
  = (b - a) * (b - a - 1).
Proof.
  intros Hab. remember (Z.to_nat (b - a)) as d eqn:Hd. revert a Hab Hd.
  induction d as [|d IH]; intros a Hab Hd.
  - rewrite for_int_empty by lia. simpl. nia.
  - rewrite for_int_cons by lia. rewrite length_loop_cons.
    rewrite Nat2Z.inj_add, Z.mul_add_distr_l, IH by lia.
    rewrite (length_loop_const _ _ 1%nat) by reflexivity.
    rewrite Nat.mul_1_r, length_for_int. nia.
Qed.

Lemma length_loop_split {A B C : Type} (range : list Z)
  (f : Z -> list A) (g : Z -> list B) (h : Z -> list C) :
  (forall x, In x range ->
     (List.length (f x) + List.length (g x))%nat = List.length (h x)) ->
  (List.length (loop range f) + List.length (loop range g))%nat
  = List.length (loop range h).
Proof.
  induction range as [|x range IH]; intros H; [reflexivity|].
  rewrite !length_loop_cons, <- (H x) by (simpl; auto).
  rewrite <- IH by (intros y Hy; apply H; simpl; auto). lia.
Qed.

Lemma pairs_for_uint {A : Type} (b : Z) (f : Z -> Z -> list A) :
  loop (for_uint 0 b) (fun i => loop (for_uint (i + 1) b) (f i))
  = loop (for_int 0 b) (fun i => loop (for_int (i + 1) b) (f i)).
Proof.
  rewrite for_uint_nonneg by lia. apply loop_ext. intros i Hi.
  apply in_for_int in Hi. now rewrite for_uint_nonneg by lia.
Qed.

(** A body run once per existing edge. *)
Lemma length_over_edges {A : Type} (ctx : g_context_s)
  (body : Z -> Z -> list A) (c : nat) :
  (forall e1 e2, existing_edge ctx e1 e2 -> List.length (body e1 e2) = c) ->
  List.length
    (loop (for_uint 0 (n ctx)) (fun e1 =>
     loop (for_uint (e1 + 1) (n ctx)) (fun e2 =>
     when (isEdge (G ctx) e1 e2) (body e1 e2))))
  = (List.length (edges ctx) * c)%nat.
Proof.
  intros Hbody. unfold edges.
  apply length_loop_scaled. intros e1 H1. apply in_for_uint in H1; [|lia].
  apply length_loop_scaled. intros e2 H2. apply in_for_uint in H2; [|lia].
  destruct (isEdge (G ctx) e1 e2) eqn:E; simpl; [|reflexivity].
  rewrite Hbody; [lia|]. unfold existing_edge. repeat split; auto; lia.
Qed.

(** The existing edges other than a given one. *)
Lemma length_other_edges {A : Type} (ctx : g_context_s) (e1 e2 : Z)
  (f : Z -> Z -> A) :
  existing_edge ctx e1 e2 ->
  S (List.length
       (loop (for_uint 0 (n ctx)) (fun f1 =>
        loop (for_uint (f1 + 1) (n ctx)) (fun f2 =>
        when ((negb (e1 =? f1) || negb (e2 =? f2)) && isEdge (G ctx) f1 f2)
          [ f f1 f2 ]))))
  = List.length (edges ctx).
Proof.
  intros (He & He' & HeE).
  assert (Hone : List.length
            (loop (for_uint 0 (n ctx)) (fun f1 =>
             loop (for_uint (f1 + 1) (n ctx)) (fun f2 =>
             when ((e1 =? f1) && (e2 =? f2) && isEdge (G ctx) f1 f2)
               [ f f1 f2 ]))) = 1%nat).
  { rewrite pairs_for_uint. rewrite (loop_point 0 (n ctx) e1).
    - rewrite (loop_point (e1 + 1) (n ctx) e2).
      + rewrite !Z.eqb_refl, HeE.
        destruct (Z.leb_spec 0 e1), (Z.ltb_spec e1 (n ctx)),
                 (Z.leb_spec (e1 + 1) e2), (Z.ltb_spec e2 (n ctx));
          try lia. reflexivity.
      + intros y Hy. rewrite (proj2 (Z.eqb_neq e2 y)) by congruence.
        now rewrite andb_false_r.
    - intros y Hy. rewrite (loop_ext _ _ (fun _ => [])); [apply loop_nil|].
      intros z _. now rewrite (proj2 (Z.eqb_neq e1 y)) by congruence. }
  rewrite <- Nat.add_1_r, <- Hone. unfold edges.
  apply length_loop_split. intros f1 _.
  apply length_loop_split. intros f2 _.
  destruct (e1 =? f1), (e2 =? f2), (isEdge (G ctx) f1 f2); reflexivity.
Qed.

Lemma length_phi_2_1 (ctx : g_context_s) :
  0 <= N ctx ->
  Z.of_nat (List.length (phi_2_1 ctx))
  = N ctx * (Z.of_nat (List.length (edges ctx))
             * (Z.of_nat (List.length (edges ctx)) - 1)).
Proof.
  intros HN. unfold phi_2_1.
  rewrite (length_loop_const _ _
             (List.length (edges ctx) * (List.length (edges ctx) - 1))%nat).
  - rewrite for_uint_nonneg by lia.
    rewrite Nat2Z.inj_mul, length_for_int.
    destruct (List.length (edges ctx)) as [|E]; [simpl; lia|].
    replace (S E - 1)%nat with E by lia. rewrite Nat2Z.inj_mul. nia.
  - intros i _. apply length_over_edges. intros e1 e2 He.
    pose proof (length_other_edges ctx e1 e2
                  (fun f1 f2 => OR [NOT (X_ e1 e2 i); NOT (X_ f1 f2 i)]) He)
      as Hothers.
    cbv beta in Hothers. lia.
Qed.

Lemma length_phi_2_2 (ctx : g_context_s) :
  0 <= N ctx ->
  2 * Z.of_nat (List.length (phi_2_2 ctx))
  = Z.of_nat (List.length (edges ctx)) * (N ctx * (N ctx - 1)).
Proof.
  intros HN. unfold phi_2_2.
  set (T := List.length
              (loop (for_int 0 (N ctx)) (fun i =>
               loop (for_int (i + 1) (N ctx)) (fun j => [ (i, j) ])))).
  assert (HT : 2 * Z.of_nat T = N ctx * (N ctx - 1)).
  { unfold T. rewrite length_pairs by lia. nia. }
  rewrite (length_over_edges ctx _ T).
  - rewrite Nat2Z.inj_mul. nia.
  - intros e1 e2 _. rewrite pairs_for_uint. unfold T.
    rewrite (length_loop_scaled _ _
               (fun i => loop (for_int (i + 1) (N ctx))
                              (fun j => [ (i, j) ])) 1%nat); [lia|].
    intros i _.
    rewrite !(length_loop_const _ _ 1%nat) by reflexivity. lia.
Qed.

Lemma length_phi_4_2 (ctx : g_context_s) :
  0 <= N ctx -> 0 <= C_H ctx ->
  2 * Z.of_nat (List.length (phi_4_2 ctx))
  = C_H ctx * (N ctx * (N ctx - 1)).
Proof.
  intros HN HC. unfold phi_4_2.
  set (T := List.length
              (loop (for_int 0 (N ctx)) (fun i =>
               loop (for_int (i + 1) (N ctx)) (fun j => [ (i, j) ])))).
  assert (HT : 2 * Z.of_nat T = N ctx * (N ctx - 1)).
  { unfold T. rewrite length_pairs by lia. nia. }
  rewrite (length_loop_const _ _ T).
  - rewrite Nat2Z.inj_mul, length_for_int. nia.
  - intros c _. rewrite pairs_for_uint. unfold T.
    rewrite (length_loop_scaled _ _
               (fun i => loop (for_int (i + 1) (N ctx))
                              (fun j => [ (i, j) ])) 1%nat); [lia|].
    intros i _.
    rewrite !(length_loop_const _ _ 1%nat) by reflexivity. lia.
Qed.

(** The elements of a range other than [j]. *)
Lemma length_loop_except {A : Type} (a b j : Z) (f : Z -> A) :
  a <= b ->
  Z.of_nat (List.length
     (loop (for_int a b) (fun x => when (negb (x =? j)) [ f x ])))
  = (b - a) - (if (a <=? j) && (j <? b) then 1 else 0).
Proof.
  intros Hab.
  assert (Hsplit :
    Nat.add
      (List.length (loop (for_int a b)
                      (fun x => when (negb (x =? j)) [ f x ])))
      (List.length (loop (for_int a b) (fun x => when (x =? j) [ f x ])))
    = List.length (loop (for_int a b) (fun x => [ f x ]))).
  { apply length_loop_split. intros x _. destruct (x =? j); reflexivity. }
  rewrite (loop_point a b j (fun x => when (x =? j) [ f x ])) in Hsplit.
  - rewrite (length_loop_const _ (fun x => [ f x ]) 1%nat) in Hsplit
      by reflexivity.
    assert (Hlen := length_for_int a b).
    rewrite Z.eqb_refl in Hsplit.
    destruct ((a <=? j) && (j <? b)); simpl in Hsplit; lia.
  - intros y Hy. now rewrite (proj2 (Z.eqb_neq y j)) by congruence.
Qed.

(** The pairs [j1 < j2] of [a .. C-1] that avoid [j]. *)
Lemma length_pairs_except {A : Type} (C j a : Z) (f : Z -> Z -> A) :
  a <= C ->
  2 * Z.of_nat (List.length
        (loop (for_int a (C - 1)) (fun j1 =>
         when (negb (j1 =? j)) (
           loop (for_int (j1 + 1) C) (fun j2 =>
           when (negb (j2 =? j)) [ f j1 j2 ])))))
  = if (a <=? j) && (j <? C)
    then (C - a - 1) * (C - a - 2)
    else (C - a) * (C - a - 1).
Proof.
  intros HaC. remember (Z.to_nat (C - a)) as d eqn:Hd. revert a HaC Hd.
  induction d as [|d IH]; intros a HaC Hd.
  - rewrite for_int_empty by lia.
    unfold loop; cbn [flat_map List.length Z.of_nat].
    destruct (Z.leb_spec a j), (Z.ltb_spec j C); cbn [andb]; (lia || nia).
  - destruct (Z.eq_dec a (C - 1)) as [-> | Hlast].
    + rewrite for_int_empty by lia.
    unfold loop; cbn [flat_map List.length Z.of_nat].
      destruct (Z.leb_spec (C - 1) j), (Z.ltb_spec j C); cbn [andb]; (lia || nia).
    + rewrite for_int_cons by lia. rewrite length_loop_cons.
      rewrite Nat2Z.inj_add, Z.mul_add_distr_l, IH by lia.
      destruct (Z.eqb_spec a j) as [-> | Hne]; cbn [negb when List.length].
      * destruct (Z.leb_spec j j), (Z.leb_spec (j + 1) j), (Z.ltb_spec j C);
          cbn [andb]; (lia || nia).
      * rewrite length_loop_except by lia.
        destruct (Z.leb_spec a j), (Z.leb_spec (a + 1) j), (Z.ltb_spec j C);
          cbn [andb]; (lia || nia).
Qed.

Lemma length_phi_3_2 (ctx : g_context_s) :
  1 <= C_H ctx ->
  2 * Z.of_nat (List.length (phi_3_2 ctx))
  = (C_H ctx - 1) * ((C_H ctx - 1) * (C_H ctx - 2)).
Proof.
  intros HC. unfold phi_3_2.
  set (T := Z.to_nat ((C_H ctx - 1) * (C_H ctx - 2) / 2)).
  assert (HT : 2 * Z.of_nat T = (C_H ctx - 1) * (C_H ctx - 2)).
  { assert (Hpos : 0 <= (C_H ctx - 1) * (C_H ctx - 2)).
    { destruct (Z.eq_dec (C_H ctx) 1) as [-> | Hne]; [lia|].
      apply Z.mul_nonneg_nonneg; lia. }
    unfold T. rewrite Z2Nat.id by (apply Z.div_pos; lia).
    assert (Heven : ((C_H ctx - 1) * (C_H ctx - 2)) mod 2 = 0).
    { rewrite Z.mul_mod by lia.
      destruct (Z.mod_pos_bound (C_H ctx - 1) 2 ltac:(lia)) as [? ?].
      assert (Hm : (C_H ctx - 2) mod 2 = (1 + (C_H ctx - 1)) mod 2).
      { replace (1 + (C_H ctx - 1)) with (C_H ctx - 2 + 1 * 2) by lia.
        now rewrite Z.mod_add by lia. }
      rewrite Hm, Z.add_mod by lia.
      assert (Hcase : (C_H ctx - 1) mod 2 = 0 \/ (C_H ctx - 1) mod 2 = 1)
        by lia.
      destruct Hcase as [-> | ->]; reflexivity. }
    pose proof (Z.div_mod ((C_H ctx - 1) * (C_H ctx - 2)) 2 ltac:(lia)).
    lia. }
  rewrite (length_loop_const _ _ T).
  - rewrite Nat2Z.inj_mul, length_for_int. nia.
  - intros j Hj. apply in_for_int in Hj.
    pose proof (length_pairs_except (C_H ctx) j 0
                  (fun j1 j2 => OR [NOT (P_ j j1); NOT (P_ j j2)])
                  ltac:(lia)) as Hp.
    cbv beta in Hp.
    destruct (Z.leb_spec 0 j), (Z.ltb_spec j (C_H ctx)); cbn [andb] in Hp;
      lia.
Qed.

(** ** The lengths of the clause arrays *)

(** While none of the array lengths wraps around, every array is at least
    as long as the number of clauses written into it. *)
Lemma clause_arrays_long_enough (g : EdgeConGraph) (cost : Z) :
  let ctx := init_g_context g cost in
  m ctx = Z.of_nat (List.length (edges ctx)) ->
  1 <= m ctx -> 2 <= C_H ctx ->
  lengths_do_not_wrap ctx ->
  (Z.of_nat (List.length (phi_2_1 ctx)) = N ctx * m ctx * (m ctx - 1) /\
   phi_2_1_len ctx = N ctx * (m ctx * m ctx - 1) /\
   Z.of_nat (List.length (phi_2_1 ctx)) <= phi_2_1_len ctx) /\
  (Z.of_nat (List.length (phi_2_2 ctx))
     = m ctx * (N ctx * (N ctx - 1) / 2) /\
   phi_2_2_len ctx = m ctx * (N ctx * N ctx / 2) /\
   Z.of_nat (List.length (phi_2_2 ctx)) <= phi_2_2_len ctx) /\
  (Z.of_nat (List.length (phi_3_2 ctx))
     = (C_H ctx - 1) * ((C_H ctx - 1) * (C_H ctx - 2) / 2) /\
   phi_3_2_len ctx = (C_H ctx - 1) * (C_H ctx - 1) * (C_H ctx - 1) /\
   Z.of_nat (List.length (phi_3_2 ctx)) <= phi_3_2_len ctx) /\
  (Z.of_nat (List.length (phi_4_2 ctx))
     = C_H ctx * (N ctx * (N ctx - 1) / 2) /\
   phi_4_2_len ctx = C_H ctx * (N ctx * N ctx / 2) /\
   Z.of_nat (List.length (phi_4_2 ctx)) <= phi_4_2_len ctx).
Proof.
  intros ctx Hm Hm1 HC (Wmm & W21 & WNN & W22 & W42 & W32).
  assert (HN := N_init_nonneg g cost). fold ctx in HN.
  assert (HNN : 0 <= N ctx * N ctx) by nia.
  assert (Hhalf : 0 <= N ctx * N ctx / 2) by (apply Z.div_pos; lia).
  assert (Htri : 2 * (N ctx * (N ctx - 1) / 2) = N ctx * (N ctx - 1)).
  { assert (Heven : (N ctx * (N ctx - 1)) mod 2 = 0).
    { rewrite Z.mul_mod by lia.
      assert (Hm2 : (N ctx - 1) mod 2 = (1 + N ctx) mod 2).
      { replace (1 + N ctx) with (N ctx - 1 + 1 * 2) by lia.
        now rewrite Z.mod_add by lia. }
      rewrite Hm2, Z.add_mod by lia.
      destruct (Z.mod_pos_bound (N ctx) 2 ltac:(lia)) as [? ?].
      assert (Hcase : N ctx mod 2 = 0 \/ N ctx mod 2 = 1) by lia.
      destruct Hcase as [-> | ->]; reflexivity. }
    pose proof (Z.div_mod (N ctx * (N ctx - 1)) 2 ltac:(lia)). lia. }
  assert (Hle : N ctx * (N ctx - 1) / 2 <= N ctx * N ctx / 2)
    by (apply Z.div_le_mono; lia).
  assert (H21 := length_phi_2_1 ctx ltac:(lia)). rewrite <- Hm in H21.
  assert (H22 := length_phi_2_2 ctx ltac:(lia)). rewrite <- Hm in H22.
  assert (H32 := length_phi_3_2 ctx ltac:(lia)).
  assert (H42 := length_phi_4_2 ctx ltac:(lia) ltac:(lia)).
  assert (L21 : phi_2_1_len ctx = N ctx * (m ctx * m ctx - 1)).
  { unfold phi_2_1_len, to_uint.
    rewrite (Z.mod_small (m ctx * m ctx)) by nia.
    rewrite (Z.mod_small (m ctx * m ctx - 1)) by nia.
    apply Z.mod_small. nia. }
  assert (L22 : phi_2_2_len ctx = m ctx * (N ctx * N ctx / 2)).
  { unfold phi_2_2_len, to_uint.
    rewrite (Z.mod_small (N ctx * N ctx)) by lia.
    apply Z.mod_small. nia. }
  assert (L42 : phi_4_2_len ctx = C_H ctx * (N ctx * N ctx / 2)).
  { unfold phi_4_2_len, to_uint.
    assert (HC32 : C_H ctx < 2 ^ 32).
    { unfold INT_MAX in W32.
      assert (C_H ctx - 1 <= (C_H ctx - 1) * (C_H ctx - 1) * (C_H ctx - 1))
        by nia.
      lia. }
    rewrite (Z.mod_small (C_H ctx)) by lia.
    rewrite (Z.mod_small (N ctx * N ctx)) by lia.
    apply Z.mod_small. nia. }
  assert (T32 : 2 * ((C_H ctx - 1) * (C_H ctx - 2) / 2)
                = (C_H ctx - 1) * (C_H ctx - 2)).
  { assert (Heven : ((C_H ctx - 1) * (C_H ctx - 2)) mod 2 = 0).
    { rewrite Z.mul_mod by lia.
      assert (Hm2 : (C_H ctx - 2) mod 2 = (1 + (C_H ctx - 1)) mod 2).
      { replace (1 + (C_H ctx - 1)) with (C_H ctx - 2 + 1 * 2) by lia.
        now rewrite Z.mod_add by lia. }
      rewrite Hm2, Z.add_mod by lia.
      destruct (Z.mod_pos_bound (C_H ctx - 1) 2 ltac:(lia)) as [? ?].
      assert (Hcase : (C_H ctx - 1) mod 2 = 0 \/ (C_H ctx - 1) mod 2 = 1)
        by lia.
      destruct Hcase as [-> | ->]; reflexivity. }
    pose proof (Z.div_mod ((C_H ctx - 1) * (C_H ctx - 2)) 2 ltac:(lia)).
    lia. }
  repeat split.
  - lia.
  - exact L21.
  - rewrite L21, H21. nia.
  - nia.
  - exact L22.
  - rewrite L22. nia.
  - nia.
  - unfold phi_3_2_len. nia.
  - nia.
  - exact L42.
  - rewrite L42. nia.
Qed.

(** C10 on the graph [bipartite]: 65537 edges and two components. The
    length of the array of phi_2_1 is computed on [unsigned int] and wraps
    around to 131072, while the loops write one clause for each of the
    65537 * 65536 ordered pairs of distinct edges. *)
Theorem phi_2_1_array_overrun_on_bipartite :
  let ctx := init_g_context bipartite 0 in
  m ctx = 65537 /\ C_H ctx = 2 /\ N ctx = 1 /\
  Z.of_nat (List.length (edges ctx)) = m ctx /\
  phi_2_1_len ctx = 131072 /\
  Z.of_nat (List.length (phi_2_1 ctx)) = 65537 * 65536 /\
  phi_2_1_len ctx < Z.of_nat (List.length (phi_2_1 ctx)).
Proof.
  intros ctx.
  assert (HE : Z.of_nat (List.length (edges ctx)) = 65537)
    by (vm_compute; reflexivity).
  assert (Hlen : phi_2_1_len ctx = 131072) by (vm_compute; reflexivity).
  assert (HN : N ctx = 1) by (vm_compute; reflexivity).
  assert (Hcount := length_phi_2_1 ctx ltac:(rewrite HN; lia)).
  rewrite HE, HN in Hcount.
  split; [reflexivity|]. split; [reflexivity|]. split; [exact HN|].
  split; [exact HE|]. split; [exact Hlen|].
  split; [rewrite Hcount; reflexivity|].
  rewrite Hcount, Hlen. reflexivity.
Qed.

(** ** What phi_5 imposes *)

(** With a bound [0 <= k < N], phi_5 contains, for the component [k], its
    variable at every level of [0 .. C_H-1]: it holds in every model of
    phi_4_1, whatever the levels are. *)
Lemma phi_5_follows_from_phi_4_1
  (model : Z3_model) (g : EdgeConGraph) (cost : Z) :
  let ctx := init_g_context g cost in
  1 <= C_H ctx -> 0 <= cost < N ctx ->
  interp model (build_phi_4_1 ctx) = true ->
  interp model (build_phi_5 ctx) = true.
Proof.
  intros ctx HC Hk H41.
  assert (HN : N ctx <= C_H ctx - 1).
  { cbn [N C_H ctx init_g_context] in *. unfold to_uint.
    apply Z.mod_le; lia. }
  assert (Hcomp : is_component ctx cost) by (unfold is_component; lia).
  assert (Hor := interp_and_in _ _ _ H41 (phi_4_1_in ctx cost Hcomp)).
  apply interp_or_ex in Hor. destruct Hor as (a & Ha & Htrue).
  apply phi_4_1_disj_inv in Ha. destruct Ha as (h & Hh & ->).
  unfold build_phi_5. cbn [interp]. apply existsb_exists.
  exists (L_ cost h). split; [|exact Htrue].
  unfold phi_5. change (k ctx) with cost.
  enter h. enter cost. here.
Qed.

(** ** The depth bound and the levels on the path of four nodes *)

(** C1 on the graph [path4] with the bound [k = 1]. phi_5 is the
    disjunction of [l_[1,0]], [l_[1,1]] and [l_[1,2]], the variables of
    component 1 at the levels 0, 1 and 2; [model_flat] satisfies the formula
    with every component at level 0, and no component at a level of
    [k .. N-1]. *)
Theorem phi_5_satisfied_below_the_bound :
  let ctx := init_g_context path4 1 in
  build_phi_5 ctx
  = Z3_mk_or [ getVariableLevelInSpanningTree 0 1;
               getVariableLevelInSpanningTree 1 1;
               getVariableLevelInSpanningTree 2 1 ] /\
  interp model_flat (EdgeConReduction path4 1) = true /\
  forallb (fun c => valueOfVarInModel model_flat (L_ c 0))
          (for_int 0 (C_H ctx)) = true /\
  forallb (fun c =>
    forallb (fun h => negb (valueOfVarInModel model_flat (L_ c h)))
            (for_uint (k ctx) (N ctx)))
    (for_int 0 (C_H ctx)) = true.
Proof. intros ctx. repeat split; vm_compute; reflexivity. Qed.

(** C6 on the graph [path4] with the bound [k = 1]. phi_5 creates the
    Level variable of component 1 at level [2 = N]; [model_extra] satisfies
    the formula and sets it true together with the variable of component 1
    at level 0. *)
Theorem level_variable_at_level_N_created_and_free :
  let ctx := init_g_context path4 1 in
  let F := EdgeConReduction path4 1 in
  N ctx = 2 /\
  In (getVariableLevelInSpanningTree 2 1) (vars (build_phi_5 ctx)) /\
  In (getVariableLevelInSpanningTree 2 1) (vars F) /\
  In (getVariableLevelInSpanningTree 0 1) (vars F) /\
  getVariableLevelInSpanningTree 2 1 <> getVariableLevelInSpanningTree 0 1 /\
  interp model_extra F = true /\
  valueOfVarInModel model_extra (getVariableLevelInSpanningTree 0 1) = true /\
  valueOfVarInModel model_extra (getVariableLevelInSpanningTree 2 1) = true.
Proof.
  intros ctx F.
  repeat split;
    try (vm_compute; reflexivity);
    try (vm_compute; repeat (first [ left; reflexivity | right ]); fail).
  vm_compute. discriminate.
Qed.

(** ** The statements on the instances *)

(** On [path4], phi_8 creates [P(0,1)]: the root is the child. *)
Lemma root_is_a_child_in_phi_8 :
  ~ (forall (g : EdgeConGraph) (cost child parent : Z),
       In (getVariableParent child parent) (vars (EdgeConReduction g cost)) ->
       1 <= child < getNumComponents g).
Proof.
  intros H. specialize (H path4 1 0 1).
  assert (Hin : In (getVariableParent 0 1) (vars (EdgeConReduction path4 1))).
  { vm_compute. repeat (first [ left; reflexivity | right ]). }
  apply H in Hin. lia.
Qed.

Lemma parent_variable_children_witness :
  let ctx := init_g_context path4 1 in
  In (getVariableParent 2 1) (vars (build_phi_3 ctx)) /\
  is_component ctx 0 /\ is_component ctx 1 /\ 0 <> 1 /\
  (exists j j', 1 <= j < C_H ctx /\ is_component ctx j' /\ j' <> j /\
                getVariableParent 2 1 = getVariableParent j j') /\
  In (getVariableParent 0 1) (vars (build_phi_8 ctx)).
Proof.
  intros ctx.
  assert (Hin : In (getVariableParent 2 1) (vars (build_phi_3 ctx))).
  { vm_compute. repeat (first [ left; reflexivity | right ]). }
  assert (H0 : is_component ctx 0) by (unfold is_component; simpl; lia).
  assert (H1 : is_component ctx 1) by (unfold is_component; simpl; lia).
  assert (Hne : 0 <> 1) by lia.
  destruct (parent_variable_children path4 1 (getVariableParent 2 1) 0 1)
    as [Hphi3 Hphi8].
  split; [exact Hin|]. split; [exact H0|]. split; [exact H1|].
  split; [exact Hne|]. split; [exact (Hphi3 Hin) | exact (Hphi8 H0 H1 Hne)].
Defined.

(** In [model_chain] component 1 is the parent of component 2, component 2
    is at level 1 and component 1 at level 0: the level of the child is
    not the level of the parent minus one. *)
Lemma child_level_is_not_parent_level_minus_one :
  ~ (forall (model : Z3_model) (g : EdgeConGraph) (cost j1 j2 h1 h2 : Z),
       let ctx := init_g_context g cost in
       interp model (EdgeConReduction g cost) = true ->
       is_component ctx j1 -> is_component ctx j2 -> j1 <> j2 ->
       valueOfVarInModel model (P_ j1 j2) = true ->
       has_level ctx model j1 h1 -> has_level ctx model j2 h2 ->
       h1 = h2 - 1).
Proof.
  intros H. specialize (H model_chain path4 1 2 1 1 0).
  cbv zeta in H.
  assert (Habs : 1 = 0 - 1); [|lia].
  apply H.
  - vm_compute. reflexivity.
  - unfold is_component. simpl. lia.
  - unfold is_component. simpl. lia.
  - lia.
  - vm_compute. reflexivity.
  - split; [|vm_compute; reflexivity].
    change (N (init_g_context path4 1)) with 2. lia.
  - split; [|vm_compute; reflexivity].
    change (N (init_g_context path4 1)) with 2. lia.
Qed.

Lemma parent_has_translator_edge_and_level_above_witness :
  let ctx := init_g_context path4 1 in
  interp model_chain (EdgeConReduction path4 1) = true /\
  is_component ctx 2 /\ is_component ctx 1 /\ 2 <> 1 /\
  (valueOfVarInModel model_chain (P_ 2 1) = true ->
   (exists u v i,
       crossing_edge ctx 2 1 u v /\ 0 <= i < N ctx /\
       valueOfVarInModel model_chain (X_ u v i) = true) /\
   (forall h1 h2,
       has_level ctx model_chain 2 h1 -> has_level ctx model_chain 1 h2 ->
       1 <= h1 -> h2 = h1 - 1)) /\
  ((forall u v, ~ crossing_edge ctx 2 1 u v) ->
   build_phi_6 ctx 2 1 = Z3_mk_false /\
   valueOfVarInModel model_chain (P_ 2 1) = false).
Proof.
  intros ctx.
  assert (Hsat : interp model_chain (EdgeConReduction path4 1) = true)
    by (vm_compute; reflexivity).
  assert (H2 : is_component ctx 2) by (unfold is_component; simpl; lia).
  assert (H1 : is_component ctx 1) by (unfold is_component; simpl; lia).
  assert (Hne : 2 <> 1) by lia.
  split; [exact Hsat|]. split; [exact H2|]. split; [exact H1|].
  split; [exact Hne|].
  exact (parent_has_translator_edge_and_level_above
           model_chain path4 1 2 1 Hsat H2 H1 Hne).
Defined.

Lemma translator_assignment_partial_injective_witness :
  let ctx := init_g_context path4 1 in
  interp model_flat (EdgeConReduction path4 1) = true /\
  0 <= 0 < N ctx /\ 0 <= 1 < N ctx /\
  existing_edge ctx 0 1 /\ existing_edge ctx 1 2 /\
  ((0, 1) <> (1, 2) ->
   ~ (valueOfVarInModel model_flat (X_ 0 1 0) = true /\
      valueOfVarInModel model_flat (X_ 1 2 0) = true)) /\
  (0 <> 1 ->
   ~ (valueOfVarInModel model_flat (X_ 0 1 0) = true /\
      valueOfVarInModel model_flat (X_ 0 1 1) = true)).
Proof.
  intros ctx.
  assert (Hsat : interp model_flat (EdgeConReduction path4 1) = true)
    by (vm_compute; reflexivity).
  assert (Hi : 0 <= 0 < N ctx) by (change (N ctx) with 2; lia).
  assert (Hj : 0 <= 1 < N ctx) by (change (N ctx) with 2; lia).
  assert (He : existing_edge ctx 0 1).
  { unfold existing_edge. change (n ctx) with 4.
    repeat split; (lia || reflexivity). }
  assert (Hf : existing_edge ctx 1 2).
  { unfold existing_edge. change (n ctx) with 4.
    repeat split; (lia || reflexivity). }
  split; [exact Hsat|]. split; [exact Hi|]. split; [exact Hj|].
  split; [exact He|]. split; [exact Hf|].
  exact (translator_assignment_partial_injective
           model_flat path4 1 0 1 0 1 1 2 Hsat Hi Hj He Hf).
Defined.

Lemma non_root_component_has_exactly_one_parent_witness :
  let ctx := init_g_context path4 1 in
  interp model_flat (EdgeConReduction path4 1) = true /\
  1 <= 2 < C_H ctx /\
  exists j1,
    (is_component ctx j1 /\ j1 <> 2 /\
     valueOfVarInModel model_flat (P_ 2 j1) = true) /\
    forall j2, is_component ctx j2 -> j2 <> 2 ->
      valueOfVarInModel model_flat (P_ 2 j2) = true -> j2 = j1.
Proof.
  intros ctx.
  assert (Hsat : interp model_flat (EdgeConReduction path4 1) = true)
    by (vm_compute; reflexivity).
  assert (Hj : 1 <= 2 < C_H ctx) by (simpl; lia).
  split; [exact Hsat|]. split; [exact Hj|].
  exact (non_root_component_has_exactly_one_parent
           model_flat path4 1 2 Hsat Hj).
Defined.

(** The scenario [C_H = 2], [k = 1]. *)
Lemma EdgeConReduction_unsat_when_bound_reaches_N_witness :
  getNumComponents pair2 - 1 <= 1 /\
  phi_5 (init_g_context pair2 1) = [] /\
  ~ satisfiable (EdgeConReduction pair2 1).
Proof.
  assert (Hk : getNumComponents pair2 - 1 <= 1) by (simpl; lia).
  split; [exact Hk|].
  exact (EdgeConReduction_unsat_when_bound_reaches_N pair2 1 Hk).
Defined.

(** The scenario of the path of four nodes with [k = 1]: the formula has a
    model. *)
Lemma EdgeConReduction_path4_satisfiable :
  satisfiable (EdgeConReduction path4 1).
Proof. exists model_chain. vm_compute. reflexivity. Qed.

Lemma clause_arrays_long_enough_witness :
  let ctx := init_g_context path4 1 in
  m ctx = Z.of_nat (List.length (edges ctx)) /\
  1 <= m ctx /\ 2 <= C_H ctx /\ lengths_do_not_wrap ctx /\
  Z.of_nat (List.length (phi_2_1 ctx)) <= phi_2_1_len ctx /\
  Z.of_nat (List.length (phi_2_2 ctx)) <= phi_2_2_len ctx /\
  Z.of_nat (List.length (phi_3_2 ctx)) <= phi_3_2_len ctx /\
  Z.of_nat (List.length (phi_4_2 ctx)) <= phi_4_2_len ctx.
Proof.
  intros ctx.
  assert (Hm : m ctx = Z.of_nat (List.length (edges ctx)))
    by (vm_compute; reflexivity).
  assert (Hm1 : 1 <= m ctx) by (vm_compute; discriminate).
  assert (HC : 2 <= C_H ctx) by (vm_compute; discriminate).
  assert (Hw : lengths_do_not_wrap ctx).
  { unfold lengths_do_not_wrap. repeat split; vm_compute;
      (reflexivity || discriminate). }
  destruct (clause_arrays_long_enough path4 1 Hm Hm1 HC Hw)
    as ((_ & _ & A) & (_ & _ & B) & (_ & _ & C) & (_ & _ & D)).
  split; [exact Hm|]. split; [exact Hm1|]. split; [exact HC|].
  split; [exact Hw|]. split; [exact A|]. split; [exact B|].
  split; [exact C | exact D].
Defined.

(** * Further properties of the reduction *)

(** ** The names of the variables *)

Lemma occurs_string_of_uint (c : ascii) (d : Decimal.uint) :
  occurs c (NilEmpty.string_of_uint d) -> is_digit c = true.
Proof.
  induction d; simpl; try tauto; intros [<- | H]; auto.
Qed.

Lemma length_string_of_uint (d : Decimal.uint) :
  String.length (NilEmpty.string_of_uint d) = Decimal.nb_digits d.
Proof. induction d; simpl; congruence. Qed.

(** Reading [d] after the digits accumulated in [acc] multiplies [acc] by
    at least [10 ^ nb_digits d]. *)
Lemma of_uint_acc_lower (d : Decimal.uint) (acc : positive) :
  Z.pos acc * 10 ^ Z.of_nat (Decimal.nb_digits d)
  <= Z.pos (Pos.of_uint_acc d acc).
Proof.
  revert acc.
  induction d; intros acc; cbn [Decimal.nb_digits Pos.of_uint_acc];
    [ simpl; lia | .. ];
    rewrite Nat2Z.inj_succ, Z.pow_succ_r by lia;
    match goal with
    | |- _ <= Z.pos (Pos.of_uint_acc _ ?a) => specialize (IHd a)
    end;
    assert (0 <= 10 ^ Z.of_nat (Decimal.nb_digits d))
      by (apply Z.pow_nonneg; lia);
    nia.
Qed.

(** The decimal writing of a positive number starts with a digit other
    than 0. *)
Lemma to_uint_head (p : positive) :
  exists acc l,
    Pos.to_uint p <> Decimal.Nil /\
    Pos.of_uint (Pos.to_uint p) = N.pos (Pos.of_uint_acc l acc) /\
    Decimal.nb_digits (Pos.to_uint p) = S (Decimal.nb_digits l).
Proof.
  assert (Hnorm : Decimal.unorm (Pos.to_uint p) = Pos.to_uint p).
  { rewrite <- DecimalPos.Unsigned.to_of, DecimalPos.Unsigned.of_to.
    reflexivity. }
  pose proof (DecimalPos.Unsigned.to_uint_nonzero p) as Hnz.
  pose proof (DecimalPos.Unsigned.to_uint_nonnil p) as Hnn.
  destruct (Pos.to_uint p) as [|l|l|l|l|l|l|l|l|l|l] eqn:E;
    try congruence;
    try (eexists _, l; split; [discriminate | split; reflexivity]).
  exfalso. unfold Decimal.unorm in Hnorm. cbn [Decimal.nzhead] in Hnorm.
  destruct (Decimal.nzhead l) eqn:Hl; try discriminate.
  - congruence.
  - exact (DecimalFacts.nzhead_nonzero _ _ Hl).
Qed.

Lemma nb_digits_to_uint (p : positive) :
  Z.pos p < 10 ^ 10 -> (Decimal.nb_digits (Pos.to_uint p) <= 10)%nat.
Proof.
  intros Hp. destruct (to_uint_head p) as (acc & l & _ & Hof & Hnb).
  rewrite DecimalPos.Unsigned.of_to in Hof. injection Hof as Hof.
  pose proof (of_uint_acc_lower l acc) as Hlow. rewrite <- Hof in Hlow.
  rewrite Hnb.
  destruct (Nat.le_gt_cases (Decimal.nb_digits l) 9) as [Hle | Hgt]; [lia|].
  exfalso.
  assert (10 ^ 10 <= 10 ^ Z.of_nat (Decimal.nb_digits l))
    by (apply Z.pow_le_mono_r; lia).
  assert (0 < 10 ^ Z.of_nat (Decimal.nb_digits l)) by lia.
  nia.
Qed.

(** [%d] writes at most ten digits, after a sign for a negative value. *)
Lemma length_fmt_d (z : Z) :
  - 10 ^ 10 < z < 10 ^ 10 ->
  Z.of_nat (String.length (fmt_d z)) <= (if z <? 0 then 11 else 10).
Proof.
  intros Hz. unfold fmt_d. destruct z as [|p|p]; cbn.
  - lia.
  - pose proof (nb_digits_to_uint p ltac:(lia)).
    pose proof (DecimalPos.Unsigned.to_uint_nonnil p).
    unfold NilZero.string_of_uint.
    destruct (Pos.to_uint p) eqn:E; try congruence;
      rewrite length_string_of_uint; lia.
  - pose proof (nb_digits_to_uint p ltac:(lia)).
    pose proof (DecimalPos.Unsigned.to_uint_nonnil p).
    unfold NilZero.string_of_uint.
    destruct (Pos.to_uint p) eqn:E; try congruence;
      rewrite length_string_of_uint; lia.
Qed.

Lemma occurs_fmt_d (c : ascii) (z : Z) :
  occurs c (fmt_d z) -> is_digit c = true \/ c = "-"%char.
Proof.
  unfold fmt_d. destruct z as [|p|p]; cbn.
  - intros [<- | []]. left. reflexivity.
  - unfold NilZero.string_of_uint.
    destruct (Pos.to_uint p) eqn:E;
      try (intros H; left; eapply occurs_string_of_uint; exact H).
    intros [<- | []]. left. reflexivity.
  - intros [<- | H]; [right; reflexivity|]. left. revert H.
    unfold NilZero.string_of_uint.
    destruct (Pos.to_uint p) eqn:E;
      try (intros H; eapply occurs_string_of_uint; exact H).
    intros [<- | []]. reflexivity.
Qed.

Lemma fmt_d_no_separator (c : ascii) (z : Z) :
  is_digit c = false -> c <> "-"%char -> ~ occurs c (fmt_d z).
Proof.
  intros Hd Hm H. apply occurs_fmt_d in H. destruct H; congruence.
Qed.

Lemma fmt_d_inj (z z' : Z) : fmt_d z = fmt_d z' -> z = z'.
Proof.
  unfold fmt_d. intros H. apply DecimalZ.to_int_inj.
  assert (Hn : forall w, Z.to_int w <> Decimal.Pos Decimal.Nil /\
                         Z.to_int w <> Decimal.Neg Decimal.Nil).
  { intros w. destruct w as [|p|p]; cbn; split; try discriminate;
      intros [= E]; exact (DecimalPos.Unsigned.to_uint_nonnil p E). }
  assert (Hs : Some (Z.to_int z) = Some (Z.to_int z')).
  { rewrite <- (NilZero.isi (Z.to_int z)) by apply Hn.
    rewrite <- (NilZero.isi (Z.to_int z')) by apply Hn.
    now rewrite H. }
  now injection Hs.
Qed.

Lemma substring_all (s : string) (len : nat) :
  (String.length s <= len)%nat -> substring 0 len s = s.
Proof.
  revert len. induction s as [|a s IH]; intros len H.
  - destruct len; reflexivity.
  - destruct len; simpl in *; [lia|]. f_equal. apply IH. lia.
Qed.

Lemma string_length_app (s t : string) :
  String.length (s ++ t) = (String.length s + String.length t)%nat.
Proof. induction s; simpl; congruence. Qed.

(** Two strings cut at a separator that occurs in neither first part. *)
Lemma app_sep_inj (c : ascii) (s s' t t' : string) :
  ~ occurs c s -> ~ occurs c s' ->
  (s ++ String c t = s' ++ String c t')%string -> s = s' /\ t = t'.
Proof.
  revert s'. induction s as [|a s IH]; intros [|a' s'] Hs Hs' H;
    simpl in *.
  - injection H as ->. auto.
  - injection H as <- _. tauto.
  - injection H as -> _. tauto.
  - injection H as -> H. destruct (IH s') as [-> ->]; auto.
Qed.

Lemma snprintf_40_short (s : string) :
  (String.length s <= 39)%nat -> snprintf 40 s = s.
Proof. intros H. unfold snprintf. now apply substring_all. Qed.

Ltac no_separator :=
  apply fmt_d_no_separator; [reflexivity | discriminate].

Lemma Parent_name_inj (c p c' p' : Z) :
  - 10 ^ 10 < c < 10 ^ 10 -> - 10 ^ 10 < p < 10 ^ 10 ->
  - 10 ^ 10 < c' < 10 ^ 10 -> - 10 ^ 10 < p' < 10 ^ 10 ->
  getVariableParent c p = getVariableParent c' p' -> c = c' /\ p = p'.
Proof.
  intros Hc Hp Hc' Hp'. unfold getVariableParent, mk_bool_var.
  pose proof (length_fmt_d c Hc) as L1. pose proof (length_fmt_d p Hp) as L2.
  pose proof (length_fmt_d c' Hc') as L3.
  pose proof (length_fmt_d p' Hp') as L4.
  rewrite !snprintf_40_short
    by (rewrite !string_length_app; cbn [String.length];
        destruct (c <? 0), (p <? 0), (c' <? 0), (p' <? 0); lia).
  intros [= H].
  apply (app_sep_inj ","%char) in H; [| no_separator ..].
  destruct H as [H1 H2]. apply fmt_d_inj in H1.
  apply (app_sep_inj "]"%char) in H2; [| no_separator ..].
  destruct H2 as [H2 _]. apply fmt_d_inj in H2. auto.
Qed.

Lemma Level_name_inj (l c l' c' : Z) :
  - 10 ^ 10 < l < 10 ^ 10 -> - 10 ^ 10 < c < 10 ^ 10 ->
  - 10 ^ 10 < l' < 10 ^ 10 -> - 10 ^ 10 < c' < 10 ^ 10 ->
  getVariableLevelInSpanningTree l c = getVariableLevelInSpanningTree l' c' ->
  l = l' /\ c = c'.
Proof.
  intros Hl Hc Hl' Hc'. unfold getVariableLevelInSpanningTree, mk_bool_var.
  pose proof (length_fmt_d l Hl) as L1. pose proof (length_fmt_d c Hc) as L2.
  pose proof (length_fmt_d l' Hl') as L3.
  pose proof (length_fmt_d c' Hc') as L4.
  rewrite !snprintf_40_short
    by (rewrite !string_length_app; cbn [String.length];
        destruct (l <? 0), (c <? 0), (l' <? 0), (c' <? 0); lia).
  intros [= H].
  apply (app_sep_inj ","%char) in H; [| no_separator ..].
  destruct H as [H1 H2]. apply fmt_d_inj in H1.
  apply (app_sep_inj "]"%char) in H2; [| no_separator ..].
  destruct H2 as [H2 _]. apply fmt_d_inj in H2. auto.
Qed.

(** The name written for an edge given with its ends in order. *)
Lemma X_name_ordered (a b i : Z) :
  a <= b ->
  getVariableIsIthTranslator a b i
  = mk_bool_var (snprintf 40 ("x_[(" ++ fmt_d a ++ "," ++ fmt_d b ++ "),"
                                ++ fmt_d i ++ "]")).
Proof.
  intros Hab. unfold getVariableIsIthTranslator.
  destruct (Z.ltb_spec a b); [reflexivity|].
  replace b with a by lia. reflexivity.
Qed.

Lemma X_name_inj (a b i a' b' i' : Z) :
  0 <= a < 10 ^ 10 -> 0 <= b < 10 ^ 10 -> 0 <= i < 10 ^ 10 ->
  0 <= a' < 10 ^ 10 -> 0 <= b' < 10 ^ 10 -> 0 <= i' < 10 ^ 10 ->
  a <= b -> a' <= b' ->
  getVariableIsIthTranslator a b i = getVariableIsIthTranslator a' b' i' ->
  a = a' /\ b = b' /\ i = i'.
Proof.
  intros Ha Hb Hi Ha' Hb' Hi' Hab Hab'.
  rewrite !X_name_ordered by assumption. unfold mk_bool_var.
  pose proof (length_fmt_d a ltac:(lia)) as L1.
  pose proof (length_fmt_d b ltac:(lia)) as L2.
  pose proof (length_fmt_d i ltac:(lia)) as L3.
  pose proof (length_fmt_d a' ltac:(lia)) as L4.
  pose proof (length_fmt_d b' ltac:(lia)) as L5.
  pose proof (length_fmt_d i' ltac:(lia)) as L6.
  assert (Hnn : forall z, 0 <= z -> (z <? 0) = false)
    by (intros z Hz; apply Z.ltb_ge; lia).
  rewrite Hnn in L1, L2, L3, L4, L5, L6 by lia.
  rewrite !snprintf_40_short
    by (rewrite !string_length_app; cbn [String.length]; lia).
  intros [= Heq].
  apply (app_sep_inj ","%char) in Heq; [| no_separator ..].
  destruct Heq as [H1 H2]. apply fmt_d_inj in H1.
  apply (app_sep_inj ")"%char) in H2; [| no_separator ..].
  destruct H2 as [H2 H3]. apply fmt_d_inj in H2.
  injection H3 as H3.
  apply (app_sep_inj "]"%char) in H3; [| no_separator ..].
  destruct H3 as [H3 _]. apply fmt_d_inj in H3. auto.
Qed.

(** The three families of names start with different letters. *)
Lemma X_name_head (n1 n2 i : Z) :
  exists rest, getVariableIsIthTranslator n1 n2 i = Z3_var (String "x" rest).
Proof.
  unfold getVariableIsIthTranslator, mk_bool_var, snprintf.
  destruct (n1 <? n2); cbn; eexists; reflexivity.
Qed.

Lemma P_name_head (c p : Z) :
  exists rest, getVariableParent c p = Z3_var (String "p" rest).
Proof.
  unfold getVariableParent, mk_bool_var, snprintf. cbn. eexists. reflexivity.
Qed.

Lemma L_name_head (l c : Z) :
  exists rest, getVariableLevelInSpanningTree l c = Z3_var (String "l" rest).
Proof.
  unfold getVariableLevelInSpanningTree, mk_bool_var, snprintf. cbn.
  eexists. reflexivity.
Qed.

(** X1. Variables of different families never share a handle, whatever
    their arguments. *)
Theorem variable_families_disjoint (n1 n2 i child parent level component : Z) :
  getVariableIsIthTranslator n1 n2 i <> getVariableParent child parent /\
  getVariableIsIthTranslator n1 n2 i
    <> getVariableLevelInSpanningTree level component /\
  getVariableParent child parent
    <> getVariableLevelInSpanningTree level component.
Proof.
  destruct (X_name_head n1 n2 i) as [rx ->].
  destruct (P_name_head child parent) as [rp ->].
  destruct (L_name_head level component) as [rl ->].
  repeat split; discriminate.
Qed.

(** X2. On arguments of type [int] the name of a Parent variable determines
    the child and the parent: the 40 characters of the buffer are never
    exceeded and two Parent variables share a handle only when they have
    the same arguments. *)
Theorem getVariableParent_injective (child parent child' parent' : Z) :
  is_int child -> is_int parent -> is_int child' -> is_int parent' ->
  getVariableParent child parent = getVariableParent child' parent' ->
  child = child' /\ parent = parent'.
Proof.
  unfold is_int, INT_MAX. intros H1 H2 H3 H4.
  apply Parent_name_inj; lia.
Qed.

(** X3. The same for the Level variables. *)
Theorem getVariableLevelInSpanningTree_injective
  (level component level' component' : Z) :
  is_int level -> is_int component -> is_int level' -> is_int component' ->
  getVariableLevelInSpanningTree level component
  = getVariableLevelInSpanningTree level' component' ->
  level = level' /\ component = component'.
Proof.
  unfold is_int, INT_MAX. intros H1 H2 H3 H4.
  apply Level_name_inj; lia.
Qed.

(** X4. On non-negative arguments of type [int], two X variables share a
    handle exactly when they have the same identity and the same two ends,
    in either order. *)
Theorem getVariableIsIthTranslator_same_edge (n1 n2 i n1' n2' i' : Z) :
  0 <= n1 <= INT_MAX -> 0 <= n2 <= INT_MAX -> 0 <= i <= INT_MAX ->
  0 <= n1' <= INT_MAX -> 0 <= n2' <= INT_MAX -> 0 <= i' <= INT_MAX ->
  (getVariableIsIthTranslator n1 n2 i = getVariableIsIthTranslator n1' n2' i'
   <-> Z.min n1 n2 = Z.min n1' n2' /\ Z.max n1 n2 = Z.max n1' n2' /\ i = i').
Proof.
  unfold INT_MAX. intros H1 H2 H3 H4 H5 H6.
  assert (Hcanon : forall a b j,
            getVariableIsIthTranslator a b j
            = getVariableIsIthTranslator (Z.min a b) (Z.max a b) j).
  { intros a b j. unfold getVariableIsIthTranslator.
    destruct (Z.ltb_spec a b), (Z.ltb_spec (Z.min a b) (Z.max a b));
      try lia.
    - now rewrite Z.min_l, Z.max_r by lia.
    - now rewrite Z.min_r, Z.max_l by lia.
    - replace b with a by lia. now rewrite Z.min_id, Z.max_id. }
  rewrite (Hcanon n1 n2 i), (Hcanon n1' n2' i'). split.
  - apply X_name_inj; lia.
  - intros (-> & -> & ->). reflexivity.
Qed.

(** ** The variables created by the reduction *)

Lemma in_vars_and (args : list Z3_ast) (v : Z3_ast) :
  In v (vars (Z3_mk_and args)) <-> exists c, In c args /\ In v (vars c).
Proof. cbn [vars]. apply in_flat_map. Qed.

Lemma in_vars_or (args : list Z3_ast) (v : Z3_ast) :
  In v (vars (Z3_mk_or args)) <-> exists c, In c args /\ In v (vars c).
Proof. cbn [vars]. apply in_flat_map. Qed.

Lemma in_vars_pair (a b v : Z3_ast) :
  In v (vars (OR [ a; b ])) -> In v (vars a) \/ In v (vars b).
Proof.
  unfold OR. cbn [vars flat_map]. rewrite app_nil_r. apply in_app_or.
Qed.

Lemma in_vars_not_var (a v : Z3_ast) :
  In v (vars (NOT a)) -> (exists name, a = Z3_var name) -> v = a.
Proof.
  intros H [name ->]. unfold NOT in H. cbn [vars In] in H.
  intuition congruence.
Qed.

Lemma in_vars_is_var (a v : Z3_ast) :
  In v (vars a) -> (exists name, a = Z3_var name) -> v = a.
Proof. intros H [name ->]. cbn [vars In] in H. intuition congruence. Qed.

Lemma X_is_var (a b i : Z) : exists name, X_ a b i = Z3_var name.
Proof. eexists. reflexivity. Qed.

Lemma P_is_var (a b : Z) : exists name, P_ a b = Z3_var name.
Proof. eexists. reflexivity. Qed.

Lemma L_is_var (a b : Z) : exists name, L_ a b = Z3_var name.
Proof. eexists. reflexivity. Qed.

Ltac var_of H :=
  first [ apply in_vars_not_var in H | apply in_vars_is_var in H ];
  [ | solve [ auto using X_is_var, P_is_var, L_is_var ] ].

(** Leaving the loops and tests around a clause of a clause list. *)
Ltac leave H :=
  repeat first
    [ apply in_loop in H;
      let x := fresh "x" in
      let Hx := fresh "Hx" in
      destruct H as (x & Hx & H);
      first [ apply in_for_int in Hx | apply in_for_uint in Hx; [|lia] ]
    | apply in_when in H;
      let Hc := fresh "Hc" in
      destruct H as [Hc H] ];
  try (destruct H as [<- | []]).

Lemma vars_phi_2 (ctx : g_context_s) (v : Z3_ast) :
  In v (vars (build_phi_2 ctx)) ->
  exists e1 e2 i,
    existing_edge ctx e1 e2 /\ 0 <= i < N ctx /\ v = X_ e1 e2 i.
Proof.
  intros H. apply in_vars_pair in H.
  destruct H as [H | H]; apply in_vars_and in H; destruct H as (c & Hc & H).
  - unfold phi_2_1 in Hc. leave Hc.
    apply andb_true_iff in Hc1. destruct Hc1 as [_ Hf].
    apply in_vars_pair in H.
    destruct H as [H | H]; var_of H.
    + exists x0, x1, x. unfold existing_edge. repeat split; auto; lia.
    + exists x2, x3, x. unfold existing_edge. repeat split; auto; lia.
  - unfold phi_2_2 in Hc. leave Hc.
    apply in_vars_pair in H.
    destruct H as [H | H]; var_of H.
    + exists x, x0, x1. unfold existing_edge. repeat split; auto; lia.
    + exists x, x0, x2. unfold existing_edge. repeat split; auto; lia.
Qed.

Lemma vars_phi_3 (ctx : g_context_s) (v : Z3_ast) :
  In v (vars (build_phi_3 ctx)) ->
  exists j1 j2,
    1 <= j1 < C_H ctx /\ is_component ctx j2 /\ j1 <> j2 /\ v = P_ j1 j2.
Proof.
  intros H. apply in_vars_pair in H.
  destruct H as [H | H]; apply in_vars_and in H; destruct H as (c & Hc & H).
  - unfold phi_3_1 in Hc. leave Hc.
    apply in_vars_or in H. destruct H as (a & Ha & H).
    apply phi_3_1_disj_inv in Ha. destruct Ha as (j' & Hj' & Hne & ->).
    rewrite vars_P_ in H. destruct H as [<- | []].
    exists x, j'. unfold is_component. auto.
  - apply phi_3_2_inv in Hc.
    destruct Hc as (j & j1 & j2 & Hj & H1 & H2 & Hn1 & Hn2 & ->).
    apply in_vars_pair in H.
    destruct H as [H | H]; var_of H.
    + exists j, j1. auto.
    + exists j, j2. auto.
Qed.

Lemma vars_phi_4 (ctx : g_context_s) (v : Z3_ast) :
  In v (vars (build_phi_4 ctx)) ->
  exists c h, is_component ctx c /\ 0 <= h < N ctx /\ v = L_ c h.
Proof.
  intros H. apply in_vars_pair in H.
  destruct H as [H | H]; apply in_vars_and in H; destruct H as (c & Hc & H).
  - unfold phi_4_1 in Hc. leave Hc.
    apply in_vars_or in H. destruct H as (a & Ha & H).
    apply phi_4_1_disj_inv in Ha. destruct Ha as (h & Hh & ->).
    destruct H as [<- | []]. exists x, h. unfold is_component. auto.
  - unfold phi_4_2 in Hc. leave Hc.
    apply in_vars_pair in H.
    destruct H as [H | H]; var_of H.
    + exists x, x0. unfold is_component. repeat split; auto; lia.
    + exists x, x1. unfold is_component. repeat split; auto; lia.
Qed.

Lemma vars_phi_5 (ctx : g_context_s) (v : Z3_ast) :
  In v (vars (build_phi_5 ctx)) ->
  exists n i,
    In n (for_uint (k ctx) (N ctx)) /\ is_component ctx i /\ v = L_ n i.
Proof.
  intros H. apply in_vars_or in H. destruct H as (c & Hc & H).
  unfold phi_5 in Hc.
  apply in_loop in Hc. destruct Hc as (i & Hi & Hc). apply in_for_int in Hi.
  apply in_loop in Hc. destruct Hc as (n & Hn & Hc).
  destruct Hc as [<- | []]. destruct H as [<- | []].
  exists n, i. unfold is_component. auto.
Qed.

Lemma vars_phi_8 (ctx : g_context_s) (v : Z3_ast) :
  In v (vars (build_phi_8 ctx)) -> reduction_variable ctx v.
Proof.
  intros H. apply in_vars_and in H. destruct H as (c & Hc & H).
  unfold phi_8 in Hc. leave Hc.
  apply negb_true_iff, Z.eqb_neq in Hc0.
  assert (HP : reduction_variable ctx (P_ x x0)).
  { right. left. exists x, x0. unfold is_component. auto. }
  unfold AND in H. apply in_vars_and in H. destruct H as (d & Hd & H).
  destruct Hd as [<- | [<- | []]]; apply in_vars_pair in H.
  - destruct H as [H | H].
    + var_of H. now subst.
    + assert (H6 : exists a, In a (phi_6 ctx x x0) /\ In v (vars a)).
      { unfold build_phi_6 in H.
        destruct (0 =? Z.of_nat (List.length (phi_6 ctx x x0)));
          [destruct H | now apply in_vars_or]. }
      destruct H6 as (a & Ha & Hv). apply phi_6_inv in Ha.
      destruct Ha as (u & w & i & (He & _) & Hi & ->).
      destruct Hv as [<- | []]. left. exists u, w, i. auto.
  - destruct H as [H | H].
    + var_of H. now subst.
    + apply in_vars_and in H. destruct H as (a & Ha & Hv).
      unfold phi_7 in Ha. leave Ha.
      apply in_vars_pair in Hv. right. right. left.
      destruct Hv as [Hv | Hv].
      * var_of Hv. subst v.
        exists x, x1. unfold is_component. repeat split; auto; lia.
      * destruct Hv as [<- | []].
        exists x0, (x1 - 1). unfold is_component. repeat split; auto; lia.
Qed.

(** Every variable of the assembled formula is one of those asked for by
    the loops of the builders. *)
Lemma vars_EdgeConReduction (g : EdgeConGraph) (cost : Z) (v : Z3_ast) :
  In v (vars (EdgeConReduction g cost)) ->
  reduction_variable (init_g_context g cost) v.
Proof.
  intros H. unfold EdgeConReduction, AND in H.
  apply in_vars_and in H. destruct H as (c & Hc & H).
  destruct Hc as [<- | [<- | [<- | [<- | [<- | []]]]]].
  - left. now apply vars_phi_2.
  - right. left. apply vars_phi_3 in H.
    destruct H as (j1 & j2 & H1 & H2 & Hne & ->).
    exists j1, j2. unfold is_component in *. repeat split; auto; lia.
  - right. right. left. now apply vars_phi_4.
  - right. right. right. now apply vars_phi_5.
  - now apply vars_phi_8.
Qed.

Lemma n_init_bound (g : EdgeConGraph) (cost : Z) :
  0 <= n (init_g_context g cost) < 2 ^ 32.
Proof. simpl. unfold to_uint. apply Z.mod_pos_bound. lia. Qed.

Lemma X_canonical (a b i : Z) :
  getVariableIsIthTranslator a b i
  = getVariableIsIthTranslator (Z.min a b) (Z.max a b) i.
Proof.
  unfold getVariableIsIthTranslator.
  destruct (Z.ltb_spec a b), (Z.ltb_spec (Z.min a b) (Z.max a b)); try lia.
  - now rewrite Z.min_l, Z.max_r by lia.
  - now rewrite Z.min_r, Z.max_l by lia.
  - replace b with a by lia. now rewrite Z.min_id, Z.max_id.
Qed.

(** Closing a case in which two variables of different families would be
    equal. *)
Ltac other_family H :=
  exfalso; revert H; unfold X_, P_, L_;
  repeat match goal with
  | |- context [getVariableIsIthTranslator ?a ?b ?i] =>
      let r := fresh "r" in destruct (X_name_head a b i) as [r ->]
  | |- context [getVariableParent ?a ?b] =>
      let r := fresh "r" in destruct (P_name_head a b) as [r ->]
  | |- context [getVariableLevelInSpanningTree ?a ?b] =>
      let r := fresh "r" in destruct (L_name_head a b) as [r ->]
  end;
  discriminate.

(** X5. The formula contains an X variable only for an existing edge of the
    graph and an identity of [0 .. N-1]. *)
Theorem X_variable_only_for_existing_edge
  (g : EdgeConGraph) (cost : Z) (n1 n2 i : Z) :
  let ctx := init_g_context g cost in
  0 <= n1 <= INT_MAX -> 0 <= n2 <= INT_MAX -> 0 <= i <= INT_MAX ->
  In (getVariableIsIthTranslator n1 n2 i) (vars (EdgeConReduction g cost)) ->
  existing_edge ctx (Z.min n1 n2) (Z.max n1 n2) /\ i < N ctx.
Proof.
  intros ctx H1 H2 Hi Hin. unfold INT_MAX in *.
  pose proof (n_init_bound g cost) as Hn.
  pose proof (N_init_nonneg g cost) as HN. fold ctx in Hn, HN.
  apply vars_EdgeConReduction in Hin. fold ctx in Hin.
  destruct Hin as [(e1 & e2 & j & He & Hj & Heq)
                  | [(j1 & j2 & _ & _ & _ & Heq)
                    | [(c & h & _ & _ & Heq) | (c & h & _ & _ & Heq)]]];
    try (other_family Heq).
  rewrite X_canonical in Heq. unfold X_ in Heq.
  assert (He' := He). destruct He' as (He1 & He2 & _).
  apply X_name_inj in Heq; [| lia ..].
  destruct Heq as (-> & -> & ->). split; [exact He | lia].
Qed.

(** X6. The formula contains a Parent variable only for two distinct
    components: never for a component and itself, never outside
    [0 .. C_H-1]. *)
Theorem Parent_variable_only_for_distinct_components
  (g : EdgeConGraph) (cost : Z) (child parent : Z) :
  let ctx := init_g_context g cost in
  getNumComponents g <= INT_MAX -> is_int child -> is_int parent ->
  In (getVariableParent child parent) (vars (EdgeConReduction g cost)) ->
  is_component ctx child /\ is_component ctx parent /\ child <> parent.
Proof.
  intros ctx HC H1 H2 Hin. unfold is_int, INT_MAX in *.
  apply vars_EdgeConReduction in Hin. fold ctx in Hin.
  destruct Hin as [(e1 & e2 & j & _ & _ & Heq)
                  | [(j1 & j2 & Hj1 & Hj2 & Hne & Heq)
                    | [(c & h & _ & _ & Heq) | (c & h & _ & _ & Heq)]]];
    try (other_family Heq).
  unfold P_ in Heq. unfold is_component in *.
  change (C_H ctx) with (getNumComponents g) in *.
  apply Parent_name_inj in Heq; [| lia ..].
  destruct Heq as (-> & ->). auto.
Qed.

(** X7. With a bound [k >= 0], the formula contains a Level variable only
    for a component of [0 .. C_H-1] and a level of [0 .. N]: the level [N]
    included, through the variables of phi_5. *)
Theorem Level_variable_component_and_level
  (g : EdgeConGraph) (cost : Z) (level component : Z) :
  let ctx := init_g_context g cost in
  1 <= getNumComponents g <= INT_MAX -> 0 <= cost ->
  is_int level -> is_int component ->
  In (getVariableLevelInSpanningTree level component)
     (vars (EdgeConReduction g cost)) ->
  is_component ctx component /\ 0 <= level <= N ctx.
Proof.
  intros ctx HC Hk H1 H2 Hin. unfold is_int, INT_MAX in *.
  assert (HN : N ctx = getNumComponents g - 1).
  { cbn. unfold to_uint. apply Z.mod_small. lia. }
  apply vars_EdgeConReduction in Hin. fold ctx in Hin.
  destruct Hin as [(e1 & e2 & j & _ & _ & Heq)
                  | [(j1 & j2 & _ & _ & _ & Heq)
                    | [(c & h & Hc & Hh & Heq) | (c & h & Hc & Hh & Heq)]]];
    try (other_family Heq);
    unfold is_component in *;
    change (C_H ctx) with (getNumComponents g) in *;
    change (k ctx) with cost in *.
  - unfold L_ in Heq. apply Level_name_inj in Heq; [| lia ..].
    destruct Heq as (-> & ->). lia.
  - apply in_for_uint in Hc; [|lia].
    unfold L_ in Heq. apply Level_name_inj in Heq; [| lia ..].
    destruct Heq as (-> & ->). lia.
Qed.

(** ** The other local arrays *)

Lemma length_loop_le_scaled {A B : Type} (range : list Z)
  (f : Z -> list A) (g : Z -> list B) (c : nat) :
  (forall x, In x range ->
     (List.length (f x) <= List.length (g x) * c)%nat) ->
  (List.length (loop range f) <= List.length (loop range g) * c)%nat.
Proof.
  induction range as [|x range IH]; intros H; [simpl; lia|].
  rewrite !length_loop_cons.
  pose proof (H x ltac:(simpl; auto)).
  pose proof (IH ltac:(intros y Hy; apply H; simpl; auto)). lia.
Qed.

Lemma length_singletons {A : Type} (range : list Z) (f : Z -> A) :
  List.length (loop range (fun x => [ f x ])) = List.length range.
Proof. rewrite (length_loop_const _ _ 1%nat) by reflexivity. lia. Qed.

(** X8. The array of phi_5 is exactly filled: with [0 <= k] the loops write
    [C_H * (N - k)] variables, none when [k >= N], and the declared length
    is never below that number; it is that number when [k < N]. *)
Theorem phi_5_array_filled (g : EdgeConGraph) (cost : Z) :
  let ctx := init_g_context g cost in
  1 <= C_H ctx <= INT_MAX -> 0 <= cost <= INT_MAX ->
  C_H ctx * N ctx < 2 ^ 32 ->
  Z.of_nat (List.length (phi_5 ctx)) = C_H ctx * Z.max 0 (N ctx - cost) /\
  Z.of_nat (List.length (phi_5 ctx)) <= phi_5_len ctx /\
  (cost < N ctx -> Z.of_nat (List.length (phi_5 ctx)) = phi_5_len ctx).
Proof.
  intros ctx HC Hk Hfit. unfold INT_MAX in *.
  assert (HN : N ctx = C_H ctx - 1).
  { cbn. unfold to_uint. apply Z.mod_small. cbn in HC. lia. }
  assert (Hcount : Z.of_nat (List.length (phi_5 ctx))
                   = C_H ctx * Z.max 0 (N ctx - cost)).
  { unfold phi_5. change (k ctx) with cost.
    rewrite (length_loop_const _ _ (Z.to_nat (Z.max 0 (N ctx - cost)))).
    - rewrite Nat2Z.inj_mul, length_for_int. lia.
    - intros i _. rewrite length_singletons, for_uint_nonneg by lia.
      pose proof (length_for_int cost (N ctx)). lia. }
  assert (Hlen : phi_5_len ctx
                 = C_H ctx * (if N ctx <=? cost then N ctx else N ctx - cost)).
  { unfold phi_5_len, to_uint. change (k ctx) with cost.
    rewrite (Z.mod_small cost) by lia.
    rewrite (Z.mod_small (C_H ctx)) by lia.
    destruct (Z.leb_spec (N ctx) cost).
    - apply Z.mod_small. lia.
    - rewrite (Z.mod_small (N ctx - cost)) by lia.
      apply Z.mod_small. nia. }
  split; [exact Hcount|]. rewrite Hcount, Hlen.
  destruct (Z.leb_spec (N ctx) cost); split; try lia; nia.
Qed.

(** X9. The loops of phi_6 write at most [N] variables per existing edge:
    the array of length [m * N] is long enough when [m] is the number of
    edges and the product does not wrap around. *)
Theorem phi_6_array_long_enough (g : EdgeConGraph) (cost j1 j2 : Z) :
  let ctx := init_g_context g cost in
  m ctx = Z.of_nat (List.length (edges ctx)) ->
  m ctx * N ctx < 2 ^ 32 ->
  Z.of_nat (List.length (phi_6 ctx j1 j2)) <= phi_6_len ctx.
Proof.
  intros ctx Hm Hfit.
  pose proof (N_init_nonneg g cost) as HN. fold ctx in HN.
  assert (Hle : (List.length (phi_6 ctx j1 j2)
                 <= List.length (edges ctx) * Z.to_nat (N ctx))%nat).
  { unfold phi_6, edges.
    apply length_loop_le_scaled. intros u _.
    apply length_loop_le_scaled. intros v _.
    destruct (isEdge (G ctx) u v); [|simpl; lia].
    destruct (isNodeInComponent (graph ctx) v j1 &&
              isNodeInComponent (graph ctx) u j2) eqn:E.
    - replace (true && isNodeInComponent (graph ctx) v j1
               && isNodeInComponent (graph ctx) u j2) with true
        by (symmetry; exact E).
      cbn [when List.length].
      rewrite length_singletons, for_uint_nonneg by lia.
      pose proof (length_for_int 0 (N ctx)). lia.
    - replace (true && isNodeInComponent (graph ctx) v j1
               && isNodeInComponent (graph ctx) u j2) with false
        by (symmetry; exact E).
      cbn [when List.length]. lia. }
  unfold phi_6_len, to_uint. rewrite Z.mod_small by nia.
  rewrite Hm. nia.
Qed.

(** X10. phi_8 writes one conjunction for every ordered pair of distinct
    components, [C_H * (C_H - 1)] of them, into its array of length
    [C_H * C_H], a product computed on [int]. *)
Theorem phi_8_array_long_enough (g : EdgeConGraph) (cost : Z) :
  let ctx := init_g_context g cost in
  0 <= C_H ctx -> C_H ctx * C_H ctx <= INT_MAX ->
  Z.of_nat (List.length (phi_8 ctx)) = C_H ctx * (C_H ctx - 1) /\
  Z.of_nat (List.length (phi_8 ctx)) <= phi_8_len ctx.
Proof.
  intros ctx HC _.
  assert (Hcount : Z.of_nat (List.length (phi_8 ctx))
                   = C_H ctx * (C_H ctx - 1)).
  { unfold phi_8.
    rewrite (length_loop_const _ _ (Z.to_nat (C_H ctx - 1))).
    - rewrite Nat2Z.inj_mul, length_for_int.
      destruct (Z.eq_dec (C_H ctx) 0) as [-> | Hne]; [reflexivity|].
      rewrite Z2Nat.id, Z.max_r by lia. ring.
    - intros j1 Hj1. apply in_for_int in Hj1.
      pose proof (length_loop_except 0 (C_H ctx) j1
        (fun j2 =>
           AND [ OR [ NOT (P_ j1 j2); build_phi_6 ctx j1 j2 ];
                 OR [ NOT (P_ j1 j2); build_phi_7 ctx j1 j2 ] ])
        ltac:(lia)) as Hex.
      cbv beta in Hex.
      rewrite (loop_ext _ _
        (fun j2 => when (negb (j2 =? j1))
           [ AND [ OR [ NOT (P_ j1 j2); build_phi_6 ctx j1 j2 ];
                   OR [ NOT (P_ j1 j2); build_phi_7 ctx j1 j2 ] ] ])).
      + destruct (Z.leb_spec 0 j1), (Z.ltb_spec j1 (C_H ctx));
          cbn [andb] in Hex; lia.
      + intros j2 _. now rewrite (Z.eqb_sym j1 j2). }
  split; [exact Hcount|]. rewrite Hcount. unfold phi_8_len. nia.
Qed.

(** X11. The arrays of phi_3_1, phi_4_1 and phi_7 hold what the loops
    write: [C_H - 1] disjunctions of [C_H - 1] Parent variables, [C_H]
    disjunctions of [N] Level variables, and [N - 1] implications. *)
Theorem small_arrays_long_enough (g : EdgeConGraph) (cost j j1 j2 i : Z) :
  let ctx := init_g_context g cost in
  1 <= C_H ctx -> is_component ctx j ->
  (Z.of_nat (List.length (phi_3_1 ctx)) = C_H ctx - 1 /\
   C_H ctx - 1 <= phi_3_1_len ctx) /\
  (Z.of_nat (List.length (phi_3_1_disj ctx j)) = C_H ctx - 1 /\
   C_H ctx - 1 <= phi_3_1_disj_len ctx) /\
  Z.of_nat (List.length (phi_4_1 ctx)) = phi_4_1_len ctx /\
  Z.of_nat (List.length (phi_4_1_disj ctx i)) = phi_4_1_disj_len ctx /\
  (Z.of_nat (List.length (phi_7 ctx j1 j2)) = Z.max 0 (N ctx - 1) /\
   Z.max 0 (N ctx - 1) <= phi_7_len ctx).
Proof.
  intros ctx HC Hj. unfold is_component in Hj.
  pose proof (N_init_nonneg g cost) as HN. fold ctx in HN.
  unfold phi_3_1_len, phi_3_1_disj_len, phi_4_1_len, phi_4_1_disj_len,
    phi_7_len.
  repeat split; try lia.
  - unfold phi_3_1. rewrite length_singletons.
    pose proof (length_for_int 1 (C_H ctx)). lia.
  - unfold phi_3_1_disj.
    pose proof (length_loop_except 0 (C_H ctx) j (fun j1 => P_ j j1)
                  ltac:(lia)) as Hex.
    cbv beta in Hex.
    rewrite (loop_ext _ _ (fun j1 => when (negb (j1 =? j)) [ P_ j j1 ])).
    + destruct (Z.leb_spec 0 j), (Z.ltb_spec j (C_H ctx));
        cbn [andb] in Hex; lia.
    + intros x _. now rewrite (Z.eqb_sym j x).
  - unfold phi_4_1. rewrite length_singletons.
    pose proof (length_for_int 0 (C_H ctx)). lia.
  - unfold phi_4_1_disj. rewrite length_singletons, for_uint_nonneg by lia.
    pose proof (length_for_int 0 (N ctx)). lia.
  - unfold phi_7. rewrite length_singletons, for_uint_nonneg by lia.
    pose proof (length_for_int 1 (N ctx)). lia.
Qed.

(** ** The depth bound as an [int] *)

(** X12. A negative bound makes the formula unsatisfiable: the loop counter
    of phi_5 starts at [k] and is compared with the unsigned [N], so it is
    seen as [k + 2^32] and the loop body never runs. *)
Theorem EdgeConReduction_unsat_for_negative_cost
  (g : EdgeConGraph) (cost : Z) :
  getNumComponents g <= INT_MAX -> - 2 ^ 31 <= cost < 0 ->
  phi_5 (init_g_context g cost) = [] /\
  ~ satisfiable (EdgeConReduction g cost).
Proof.
  unfold INT_MAX. intros HC Hk.
  assert (He : phi_5 (init_g_context g cost) = []).
  { unfold phi_5. cbn [C_H k N init_g_context].
    destruct (Z.le_gt_cases (getNumComponents g) 0) as [H0 | H0].
    - rewrite (for_int_empty 0) by lia. reflexivity.
    - assert (HN : to_uint (getNumComponents g - 1)
                   = getNumComponents g - 1)
        by (unfold to_uint; apply Z.mod_small; lia).
      unfold for_uint. destruct (Z.ltb_spec cost 0); [|lia].
      rewrite (for_int_empty cost) by lia. apply loop_nil. }
  split; [exact He|].
  intros [model Hsat].
  destruct (EdgeConReduction_conjuncts _ _ _ Hsat)
    as (_ & _ & _ & _ & _ & _ & H5 & _).
  unfold build_phi_5 in H5. rewrite He in H5. discriminate.
Qed.

(** X13. Between [0] and [N - 1] the bound has no effect: the formulas
    built for two such bounds have the same truth value in every model. *)
Theorem EdgeConReduction_independent_of_cost
  (model : Z3_model) (g : EdgeConGraph) (cost cost' : Z) :
  1 <= getNumComponents g ->
  0 <= cost < N (init_g_context g cost) ->
  0 <= cost' < N (init_g_context g cost') ->
  interp model (EdgeConReduction g cost)
  = interp model (EdgeConReduction g cost').
Proof.
  intros HC Hk Hk'. unfold EdgeConReduction, AND.
  change (build_phi_2 (init_g_context g cost'))
    with (build_phi_2 (init_g_context g cost)).
  change (build_phi_3 (init_g_context g cost'))
    with (build_phi_3 (init_g_context g cost)).
  change (build_phi_4 (init_g_context g cost'))
    with (build_phi_4 (init_g_context g cost)).
  change (build_phi_8 (init_g_context g cost'))
    with (build_phi_8 (init_g_context g cost)).
  cbn [interp forallb].
  destruct (interp model (build_phi_4 (init_g_context g cost))) eqn:H4.
  - assert (H41 : interp model (build_phi_4_1 (init_g_context g cost))
                  = true).
    { unfold build_phi_4, AND in H4.
      apply (interp_and_in _ _ _ H4). simpl. auto. }
    rewrite (phi_5_follows_from_phi_4_1 model g cost HC Hk H41).
    rewrite (phi_5_follows_from_phi_4_1 model g cost' HC Hk' H41).
    reflexivity.
  - cbn [andb]. now rewrite !andb_false_r.
Qed.

(** ** The decoder on a model of the formula *)

(** The calls to [addTranslator] for one edge and a list of identities. *)
Lemma filter_hits (model : Z3_model) (g : EdgeConGraph) (ids : list Z)
  (a b n1 n2 : Z) :
  filter (graph_call_eqb (AddTranslator a b))
    (loop ids (fun i =>
       when (is_the_ith_translator model g n1 n2 i) [ AddTranslator n1 n2 ]))
  = when ((a =? n1) && (b =? n2))
      (loop ids (fun i =>
         when (is_the_ith_translator model g n1 n2 i)
           [ AddTranslator n1 n2 ])).
Proof.
  rewrite filter_loop.
  destruct ((a =? n1) && (b =? n2)) eqn:E; cbn [when].
  - apply loop_ext. intros i _. rewrite filter_when. cbn [filter].
    cbn [graph_call_eqb]. now rewrite E.
  - rewrite (loop_ext _ _ (fun _ => [])); [apply loop_nil|].
    intros i _. rewrite filter_when. cbn [filter graph_call_eqb].
    rewrite E. now destruct (is_the_ith_translator _ _ _ _ _).
Qed.

Lemma count_add_calls (model : Z3_model) (g : EdgeConGraph) (a b : Z) :
  count_calls (AddTranslator a b) (decoder_calls model g)
  = if (0 <=? a) && (a <? b) && (b <? numNodes (getGraph g))
       && isEdge (getGraph g) a b
    then List.length (identities_on_edge model g a b)
    else 0%nat.
Proof.
  unfold decoder_calls, count_calls.
  rewrite getTranslatorSetFromModel_log. cbn [app].
  rewrite filter_app, length_app. cbn [filter graph_call_eqb List.length].
  rewrite Nat.add_0_r, filter_loop.
  set (numN := numNodes (getGraph g)).
  rewrite (loop_point 0 numN a).
  - rewrite filter_loop, (loop_point (a + 1) numN b).
    + rewrite filter_when, filter_hits, !Z.eqb_refl. cbn [andb when].
      destruct (Z.leb_spec 0 a), (Z.ltb_spec a numN),
               (Z.leb_spec (a + 1) b), (Z.ltb_spec a b),
               (Z.ltb_spec b numN), (isEdge (getGraph g) a b);
        cbn [andb when List.length]; try reflexivity; try lia.
      unfold identities_on_edge. apply length_loop_filter.
    + intros n2 Hne. rewrite filter_when, filter_hits.
      rewrite (proj2 (Z.eqb_neq b n2)) by congruence.
      rewrite andb_false_r. now destruct (isEdge _ _ _).
  - intros n1 Hne. rewrite filter_loop.
    rewrite (loop_ext _ _ (fun _ => [])); [apply loop_nil|].
    intros n2 _. rewrite filter_when, filter_hits.
    rewrite (proj2 (Z.eqb_neq a n1)) by congruence.
    now destruct (isEdge _ _ _).
Qed.

Lemma well_sized_context (g : EdgeConGraph) (cost : Z) :
  well_sized g ->
  n (init_g_context g cost) = numNodes (getGraph g) /\
  N (init_g_context g cost) = getNumComponents g - 1.
Proof.
  unfold well_sized, INT_MAX. intros [Hn HC]. cbn. unfold to_uint.
  split; apply Z.mod_small; lia.
Qed.

(** In a model of the formula an existing edge carries at most one
    identity. *)
Lemma identities_on_edge_at_most_one
  (model : Z3_model) (g : EdgeConGraph) (cost a b : Z) :
  well_sized g ->
  interp model (EdgeConReduction g cost) = true ->
  existing_edge (init_g_context g cost) a b ->
  (List.length (identities_on_edge model g a b) <= 1)%nat.
Proof.
  intros Hw Hsat He.
  destruct (well_sized_context g cost Hw) as [_ HN].
  destruct (EdgeConReduction_conjuncts _ _ _ Hsat) as (_ & H22 & _).
  unfold identities_on_edge. rewrite <- HN.
  set (ctx := init_g_context g cost) in *.
  assert (Hexcl : forall i j, 0 <= i -> i < j -> j < N ctx ->
            valueOfVarInModel model (X_ a b i) = true ->
            valueOfVarInModel model (X_ a b j) = true -> False).
  { intros i j Hi Hij Hj Hti Htj.
    apply (interp_exclusion model (X_ a b i) (X_ a b j)); [|split; auto].
    apply (interp_and_in _ _ _ H22). now apply phi_2_2_in. }
  assert (Hgen : forall lo, 0 <= lo ->
            (List.length
               (filter (fun i => valueOfVarInModel model (X_ a b i))
                       (for_int lo (N ctx))) <= 1)%nat).
  { intros lo. remember (Z.to_nat (N ctx - lo)) as d eqn:Hd.
    revert lo Hd. induction d as [|d IH]; intros lo Hd Hlo.
    - rewrite for_int_empty by lia. simpl. lia.
    - rewrite for_int_cons by lia. cbn [filter].
      destruct (valueOfVarInModel model (X_ a b lo)) eqn:Hlo_true;
        [|apply IH; lia].
      cbn [List.length].
      assert (Hnone : filter (fun i => valueOfVarInModel model (X_ a b i))
                        (for_int (lo + 1) (N ctx)) = []).
      { destruct (filter _ (for_int (lo + 1) (N ctx))) as [|j rest] eqn:E;
          [reflexivity|].
        assert (Hj : In j (filter
                     (fun i => valueOfVarInModel model (X_ a b i))
                     (for_int (lo + 1) (N ctx)))) by (rewrite E; simpl; auto).
        apply filter_In in Hj. destruct Hj as [Hj Htj].
        apply in_for_int in Hj.
        destruct (Hexcl lo j); auto; lia. }
      rewrite Hnone. simpl. lia. }
  apply Hgen. lia.
Qed.

(** X14. On a model of the formula the decoder calls [addTranslator] at
    most once for any pair of nodes. *)
Theorem decoder_at_most_one_call_per_edge
  (model : Z3_model) (g : EdgeConGraph) (cost n1 n2 : Z) :
  well_sized g ->
  interp model (EdgeConReduction g cost) = true ->
  (count_calls (AddTranslator n1 n2) (decoder_calls model g) <= 1)%nat.
Proof.
  intros Hw Hsat. rewrite count_add_calls.
  destruct (well_sized_context g cost Hw) as [Hn _].
  destruct (Z.leb_spec 0 n1), (Z.ltb_spec n1 n2),
           (Z.ltb_spec n2 (numNodes (getGraph g))),
           (isEdge (getGraph g) n1 n2) eqn:E; cbn [andb]; try lia.
  apply (identities_on_edge_at_most_one model g cost); auto.
  unfold existing_edge. rewrite Hn. cbn [G init_g_context].
  repeat split; auto; lia.
Qed.

(** [loop_point] when the body is known to be empty only inside the
    range. *)
Lemma loop_point_in_range {A : Type} (a b x : Z) (body : Z -> list A) :
  (forall y, a <= y < b -> y <> x -> body y = []) ->
  loop (for_int a b) body = when ((a <=? x) && (x <? b)) (body x).
Proof.
  intros Hbody.
  rewrite (loop_ext _ _ (fun y => when ((a <=? y) && (y <? b)) (body y))).
  - rewrite (loop_point a b x).
    + now destruct ((a <=? x) && (x <? b)).
    + intros y Hy.
      destruct (Z.leb_spec a y), (Z.ltb_spec y b); try reflexivity.
      cbn [andb when]. apply Hbody; [lia | exact Hy].
  - intros y Hy. apply in_for_int in Hy.
    destruct (Z.leb_spec a y), (Z.ltb_spec y b); try lia. reflexivity.
Qed.

(** A scan of the pairs [a < b] below [hi] that keeps the pairs passing a
    test keeps at most one pair when the test holds for at most one. *)
Lemma at_most_one_pair {A : Type} (hi : Z) (c : Z -> Z -> bool)
  (x : Z -> Z -> A) :
  (forall a b a' b', 0 <= a < b -> b < hi -> 0 <= a' < b' -> b' < hi ->
     c a b = true -> c a' b' = true -> a = a' /\ b = b') ->
  (List.length
     (loop (for_int 0 hi) (fun a =>
      loop (for_int (a + 1) hi) (fun b => when (c a b) [ x a b ])))
   <= 1)%nat.
Proof.
  intros Huniq.
  destruct (loop (for_int 0 hi) (fun a =>
            loop (for_int (a + 1) hi) (fun b => when (c a b) [ x a b ])))
    as [|y rest] eqn:E; [simpl; lia|].
  assert (Hy : In y (loop (for_int 0 hi) (fun a =>
            loop (for_int (a + 1) hi) (fun b => when (c a b) [ x a b ]))))
    by (rewrite E; simpl; auto).
  apply in_loop in Hy. destruct Hy as (a0 & Ha0 & Hy).
  apply in_for_int in Ha0.
  apply in_loop in Hy. destruct Hy as (b0 & Hb0 & Hy).
  apply in_for_int in Hb0.
  apply in_when in Hy. destruct Hy as [Hc0 _].
  rewrite <- E. rewrite (loop_point_in_range 0 hi a0).
  - rewrite (loop_point_in_range (a0 + 1) hi b0).
    + destruct ((0 <=? a0) && (a0 <? hi)), ((a0 + 1 <=? b0) && (b0 <? hi)),
               (c a0 b0); simpl; lia.
    + intros b Hb Hne. destruct (c a0 b) eqn:Hc; [|reflexivity].
      destruct (Huniq a0 b a0 b0); auto; try lia.
  - intros a Ha Hne.
    rewrite (loop_ext _ _ (fun _ => [])); [apply loop_nil|].
    intros b Hb. apply in_for_int in Hb.
    destruct (c a b) eqn:Hc; [|reflexivity].
    destruct (Huniq a b a0 b0); auto; try lia.
Qed.

(** The calls of a scan in which every identity of [ids] is true on at
    most one edge: at most one call per identity. *)
Lemma scan_calls_bound (hi : Z) (edge : Z -> Z -> bool)
  (hit : Z -> Z -> Z -> bool) (ids : list Z) :
  (forall i a b a' b', In i ids ->
     0 <= a < b -> b < hi -> 0 <= a' < b' -> b' < hi ->
     edge a b && hit a b i = true -> edge a' b' && hit a' b' i = true ->
     a = a' /\ b = b') ->
  (List.length
     (loop (for_int 0 hi) (fun a =>
      loop (for_int (a + 1) hi) (fun b =>
      when (edge a b) (
        loop ids (fun i => when (hit a b i) [ AddTranslator a b ])))))
   <= List.length ids)%nat.
Proof.
  induction ids as [|i ids IH]; intros Huniq.
  - rewrite (loop_ext _ _ (fun _ => [])); [now rewrite loop_nil|].
    intros a _. rewrite (loop_ext _ _ (fun _ => [])); [apply loop_nil|].
    intros b _. now destruct (edge a b).
  - assert (Hsplit :
      Nat.add
        (List.length
           (loop (for_int 0 hi) (fun a =>
            loop (for_int (a + 1) hi) (fun b =>
            when (edge a b && hit a b i) [ AddTranslator a b ]))))
        (List.length
           (loop (for_int 0 hi) (fun a =>
            loop (for_int (a + 1) hi) (fun b =>
            when (edge a b) (
              loop ids (fun i => when (hit a b i) [ AddTranslator a b ]))))))
      = List.length
          (loop (for_int 0 hi) (fun a =>
           loop (for_int (a + 1) hi) (fun b =>
           when (edge a b) (
             loop (i :: ids)
                  (fun i => when (hit a b i) [ AddTranslator a b ])))))).
    { apply length_loop_split. intros a _.
      apply length_loop_split. intros b _.
      destruct (edge a b); cbn [andb when]; [|reflexivity].
      rewrite length_loop_cons. reflexivity. }
    rewrite <- Hsplit. cbn [List.length].
    pose proof (at_most_one_pair hi (fun a b => edge a b && hit a b i)
                  (fun a b => AddTranslator a b)
                  (fun a b a' b' H1 H2 H3 H4 =>
                     Huniq i a b a' b' (or_introl eq_refl) H1 H2 H3 H4)).
    pose proof (IH (fun j a b a' b' Hj =>
                      Huniq j a b a' b' (or_intror Hj))).
    lia.
Qed.

(** X15. On a model of the formula the decoder calls [addTranslator] at
    most [N = C_H - 1] times in all, before its single call to
    [computesHomogeneousComponents]. *)
Theorem decoder_calls_within_budget
  (model : Z3_model) (g : EdgeConGraph) (cost : Z) :
  well_sized g ->
  interp model (EdgeConReduction g cost) = true ->
  exists adds,
    decoder_calls model g = (adds ++ [ ComputesHomogeneousComponents ])%list /\
    count_calls ComputesHomogeneousComponents adds = 0%nat /\
    Z.of_nat (List.length adds) <= getNumComponents g - 1.
Proof.
  intros Hw Hsat.
  destruct (well_sized_context g cost Hw) as [Hn HN].
  destruct (EdgeConReduction_conjuncts _ _ _ Hsat) as (H21 & _).
  set (ctx := init_g_context g cost) in *.
  eexists. split; [|split].
  - unfold decoder_calls. rewrite getTranslatorSetFromModel_log.
    cbn [app]. reflexivity.
  - unfold count_calls. rewrite filter_loop.
    rewrite (loop_ext _ _ (fun _ => [])); [now rewrite loop_nil|].
    intros n1 _. rewrite filter_loop.
    rewrite (loop_ext _ _ (fun _ => [])); [now rewrite loop_nil|].
    intros n2 _. rewrite filter_when, filter_loop.
    rewrite (loop_ext _ _ (fun _ => [])).
    + rewrite loop_nil. now destruct (isEdge _ _ _).
    + intros i _. rewrite filter_when. simpl.
      now destruct (is_the_ith_translator _ _ _ _ _).
  - pose proof (scan_calls_bound (numNodes (getGraph g))
                  (isEdge (getGraph g))
                  (is_the_ith_translator model g)
                  (for_int 0 (getNumComponents g - 1))) as Hbound.
    pose proof (length_for_int 0 (getNumComponents g - 1)) as Hlen.
    assert (Hle : (List.length
              (loop (for_int 0 (numNodes (getGraph g))) (fun a =>
               loop (for_int (a + 1) (numNodes (getGraph g))) (fun b =>
               when (isEdge (getGraph g) a b) (
                 loop (for_int 0 (getNumComponents g - 1)) (fun i =>
                 when (is_the_ith_translator model g a b i)
                   [ AddTranslator a b ])))))
            <= List.length (for_int 0 (getNumComponents g - 1)))%nat).
    { apply Hbound. intros i a b a' b' Hi Hab Hb Hab' Hb' Ht Ht'.
      apply in_for_int in Hi.
      apply andb_true_iff in Ht, Ht'.
      destruct Ht as [He Ht], Ht' as [He' Ht'].
      destruct (Z.eq_dec a a') as [<- | Hna];
        [destruct (Z.eq_dec b b') as [<- | Hnb]; [auto|] |]; exfalso;
        (apply (interp_exclusion model (X_ a b i) (X_ a' b' i)) ||
         apply (interp_exclusion model (X_ a b i) (X_ a b' i)));
        try (split; assumption);
        apply (interp_and_in _ _ _ H21); apply phi_2_1_in;
        unfold existing_edge; fold ctx; rewrite ?Hn, ?HN;
        try congruence; repeat split; auto; lia. }
    destruct Hw as [_ [HC _]]. lia.
Qed.

(** X16. On a model of the formula, every component other than the root
    has a parent [j1] and an existing edge from [j1] into it on which the
    decoder calls [addTranslator] exactly once. *)
Theorem decoder_links_every_non_root_component
  (model : Z3_model) (g : EdgeConGraph) (cost j : Z) :
  let ctx := init_g_context g cost in
  well_sized g ->
  interp model (EdgeConReduction g cost) = true ->
  1 <= j < C_H ctx ->
  exists j1 u v,
    is_component ctx j1 /\ j1 <> j /\
    valueOfVarInModel model (P_ j j1) = true /\
    crossing_edge ctx j j1 u v /\
    count_calls (AddTranslator u v) (decoder_calls model g) = 1%nat.
Proof.
  intros ctx Hw Hsat Hj.
  destruct (well_sized_context g cost Hw) as [Hn HN]. fold ctx in Hn, HN.
  destruct (EdgeConReduction_conjuncts _ _ _ Hsat) as (_ & _ & H31 & _).
  fold ctx in H31.
  assert (Hor := interp_and_in _ _ _ H31 (phi_3_1_in ctx j Hj)).
  apply interp_or_ex in Hor. destruct Hor as (c & Hc & HP).
  apply phi_3_1_disj_inv in Hc. destruct Hc as (j1 & Hj1 & Hne & ->).
  assert (Hcj : is_component ctx j) by (unfold is_component; lia).
  assert (Hcj1 : is_component ctx j1) by exact Hj1.
  destruct (parent_consequences model g cost j j1 Hsat Hcj Hcj1
              ltac:(congruence) HP) as [H6 _].
  fold ctx in H6. rewrite interp_build_phi_6 in H6.
  apply existsb_exists in H6. destruct H6 as (a & Ha & HX).
  apply phi_6_inv in Ha. destruct Ha as (u & v & i & Hcross & Hi & ->).
  exists j1, u, v.
  split; [exact Hj1|]. split; [exact Hne|]. split; [exact HP|].
  split; [exact Hcross|].
  assert (He := Hcross). destruct He as ((Hu & Hv & He) & _).
  rewrite count_add_calls.
  change (G ctx) with (getGraph g) in He. rewrite Hn in Hv.
  destruct (Z.leb_spec 0 u), (Z.ltb_spec u v),
           (Z.ltb_spec v (numNodes (getGraph g))); try lia.
  rewrite He. cbn [andb].
  pose proof (identities_on_edge_at_most_one model g cost u v Hw Hsat
                ltac:(apply Hcross)) as Hle.
  assert (Hin : In i (identities_on_edge model g u v)).
  { unfold identities_on_edge. apply filter_In. split; [|exact HX].
    apply in_for_int. lia. }
  destruct (identities_on_edge model g u v) as [|i0 [|i1 rest]];
    [destruct Hin | reflexivity | simpl in Hle; lia].
Qed.

(** X17. The calls of the decoder depend on the model only through the X
    variables of the existing edges and the identities [0 .. C_H-2]: two
    models that agree on them give the same calls. *)
Theorem decoder_reads_only_X_variables
  (model model' : Z3_model) (g : EdgeConGraph) (log : list graph_call) :
  (forall n1 n2 i,
     0 <= n1 < n2 -> n2 < numNodes (getGraph g) ->
     isEdge (getGraph g) n1 n2 = true ->
     0 <= i < getNumComponents g - 1 ->
     valueOfVarInModel model (getVariableIsIthTranslator n1 n2 i)
     = valueOfVarInModel model' (getVariableIsIthTranslator n1 n2 i)) ->
  getTranslatorSetFromModel model g log
  = getTranslatorSetFromModel model' g log.
Proof.
  intros Hagree.
  assert (Hsnd : snd (getTranslatorSetFromModel model g log)
                 = snd (getTranslatorSetFromModel model' g log)).
  { rewrite !getTranslatorSetFromModel_log. do 2 f_equal.
    apply loop_ext. intros n1 H1. apply in_for_int in H1.
    apply loop_ext. intros n2 H2. apply in_for_int in H2.
    destruct (isEdge (getGraph g) n1 n2) eqn:He; [|reflexivity].
    cbn [when]. apply loop_ext. intros i Hi. apply in_for_int in Hi.
    unfold is_the_ith_translator. rewrite Hagree; auto; lia. }
  destruct (getTranslatorSetFromModel model g log) as [[] l].
  destruct (getTranslatorSetFromModel model' g log) as [[] l'].
  simpl in Hsnd. now subst.
Qed.

(** ** The further properties on the instances *)

Ltac in_vars_by_computation :=
  vm_compute; repeat (first [ left; reflexivity | right ]).

Lemma getVariableParent_injective_witness :
  is_int 2 /\ is_int 1 /\ is_int 2 /\ is_int 1 /\
  getVariableParent 2 1 = getVariableParent 2 1 /\
  (2 = 2 /\ 1 = 1).
Proof.
  assert (H2 : is_int 2) by (unfold is_int, INT_MAX; lia).
  assert (H1 : is_int 1) by (unfold is_int, INT_MAX; lia).
  assert (He : getVariableParent 2 1 = getVariableParent 2 1)
    by reflexivity.
  split; [exact H2|]. split; [exact H1|]. split; [exact H2|].
  split; [exact H1|]. split; [exact He|].
  exact (getVariableParent_injective 2 1 2 1 H2 H1 H2 H1 He).
Defined.

Lemma getVariableLevelInSpanningTree_injective_witness :
  is_int 0 /\ is_int 2 /\ is_int 0 /\ is_int 2 /\
  getVariableLevelInSpanningTree 0 2 = getVariableLevelInSpanningTree 0 2 /\
  (0 = 0 /\ 2 = 2).
Proof.
  assert (H0 : is_int 0) by (unfold is_int, INT_MAX; lia).
  assert (H2 : is_int 2) by (unfold is_int, INT_MAX; lia).
  assert (He : getVariableLevelInSpanningTree 0 2
               = getVariableLevelInSpanningTree 0 2) by reflexivity.
  split; [exact H0|]. split; [exact H2|]. split; [exact H0|].
  split; [exact H2|]. split; [exact He|].
  exact (getVariableLevelInSpanningTree_injective 0 2 0 2 H0 H2 H0 H2 He).
Defined.

Lemma getVariableIsIthTranslator_same_edge_witness :
  0 <= 2 <= INT_MAX /\ 0 <= 1 <= INT_MAX /\ 0 <= 0 <= INT_MAX /\
  (getVariableIsIthTranslator 2 1 0 = getVariableIsIthTranslator 1 2 0
   <-> Z.min 2 1 = Z.min 1 2 /\ Z.max 2 1 = Z.max 1 2 /\ 0 = 0).
Proof.
  assert (H2 : 0 <= 2 <= INT_MAX) by (unfold INT_MAX; lia).
  assert (H1 : 0 <= 1 <= INT_MAX) by (unfold INT_MAX; lia).
  assert (H0 : 0 <= 0 <= INT_MAX) by (unfold INT_MAX; lia).
  split; [exact H2|]. split; [exact H1|]. split; [exact H0|].
  exact (getVariableIsIthTranslator_same_edge 2 1 0 1 2 0
           H2 H1 H0 H1 H2 H0).
Defined.

Lemma X_variable_only_for_existing_edge_witness :
  let ctx := init_g_context path4 1 in
  0 <= 1 <= INT_MAX /\ 0 <= 0 <= INT_MAX /\
  In (getVariableIsIthTranslator 1 0 1) (vars (EdgeConReduction path4 1)) /\
  existing_edge ctx (Z.min 1 0) (Z.max 1 0) /\ 1 < N ctx.
Proof.
  intros ctx.
  assert (H1 : 0 <= 1 <= INT_MAX) by (unfold INT_MAX; lia).
  assert (H0 : 0 <= 0 <= INT_MAX) by (unfold INT_MAX; lia).
  assert (Hin : In (getVariableIsIthTranslator 1 0 1)
                   (vars (EdgeConReduction path4 1)))
    by in_vars_by_computation.
  split; [exact H1|]. split; [exact H0|]. split; [exact Hin|].
  exact (X_variable_only_for_existing_edge path4 1 1 0 1 H1 H0 H1 Hin).
Defined.

Lemma Parent_variable_only_for_distinct_components_witness :
  let ctx := init_g_context path4 1 in
  getNumComponents path4 <= INT_MAX /\ is_int 0 /\ is_int 1 /\
  In (getVariableParent 0 1) (vars (EdgeConReduction path4 1)) /\
  is_component ctx 0 /\ is_component ctx 1 /\ 0 <> 1.
Proof.
  intros ctx.
  assert (HC : getNumComponents path4 <= INT_MAX)
    by (unfold INT_MAX; simpl; lia).
  assert (H0 : is_int 0) by (unfold is_int, INT_MAX; lia).
  assert (H1 : is_int 1) by (unfold is_int, INT_MAX; lia).
  assert (Hin : In (getVariableParent 0 1)
                   (vars (EdgeConReduction path4 1)))
    by in_vars_by_computation.
  split; [exact HC|]. split; [exact H0|]. split; [exact H1|].
  split; [exact Hin|].
  exact (Parent_variable_only_for_distinct_components path4 1 0 1
           HC H0 H1 Hin).
Defined.

Lemma Level_variable_component_and_level_witness :
  let ctx := init_g_context path4 1 in
  1 <= getNumComponents path4 <= INT_MAX /\ 0 <= 1 /\
  is_int 2 /\ is_int 1 /\
  In (getVariableLevelInSpanningTree 2 1) (vars (EdgeConReduction path4 1)) /\
  is_component ctx 1 /\ 0 <= 2 <= N ctx.
Proof.
  intros ctx.
  assert (HC : 1 <= getNumComponents path4 <= INT_MAX)
    by (unfold INT_MAX; simpl; lia).
  assert (Hk : 0 <= 1) by lia.
  assert (H2 : is_int 2) by (unfold is_int, INT_MAX; lia).
  assert (H1 : is_int 1) by (unfold is_int, INT_MAX; lia).
  assert (Hin : In (getVariableLevelInSpanningTree 2 1)
                   (vars (EdgeConReduction path4 1)))
    by in_vars_by_computation.
  split; [exact HC|]. split; [exact Hk|]. split; [exact H2|].
  split; [exact H1|]. split; [exact Hin|].
  exact (Level_variable_component_and_level path4 1 2 1 HC Hk H2 H1 Hin).
Defined.

Lemma phi_5_array_filled_witness :
  let ctx := init_g_context path4 1 in
  1 <= C_H ctx <= INT_MAX /\ 0 <= 1 <= INT_MAX /\
  C_H ctx * N ctx < 2 ^ 32 /\
  Z.of_nat (List.length (phi_5 ctx)) = C_H ctx * Z.max 0 (N ctx - 1) /\
  Z.of_nat (List.length (phi_5 ctx)) <= phi_5_len ctx /\
  (1 < N ctx -> Z.of_nat (List.length (phi_5 ctx)) = phi_5_len ctx).
Proof.
  intros ctx.
  assert (HC : 1 <= C_H ctx <= INT_MAX) by (unfold INT_MAX; simpl; lia).
  assert (Hk : 0 <= 1 <= INT_MAX) by (unfold INT_MAX; lia).
  assert (Hfit : C_H ctx * N ctx < 2 ^ 32) by (vm_compute; reflexivity).
  split; [exact HC|]. split; [exact Hk|]. split; [exact Hfit|].
  exact (phi_5_array_filled path4 1 HC Hk Hfit).
Defined.

Lemma phi_6_array_long_enough_witness :
  let ctx := init_g_context path4 1 in
  m ctx = Z.of_nat (List.length (edges ctx)) /\
  m ctx * N ctx < 2 ^ 32 /\
  Z.of_nat (List.length (phi_6 ctx 2 1)) <= phi_6_len ctx.
Proof.
  intros ctx.
  assert (Hm : m ctx = Z.of_nat (List.length (edges ctx)))
    by (vm_compute; reflexivity).
  assert (Hfit : m ctx * N ctx < 2 ^ 32) by (vm_compute; reflexivity).
  split; [exact Hm|]. split; [exact Hfit|].
  exact (phi_6_array_long_enough path4 1 2 1 Hm Hfit).
Defined.

Lemma phi_8_array_long_enough_witness :
  let ctx := init_g_context path4 1 in
  0 <= C_H ctx /\ C_H ctx * C_H ctx <= INT_MAX /\
  Z.of_nat (List.length (phi_8 ctx)) = C_H ctx * (C_H ctx - 1) /\
  Z.of_nat (List.length (phi_8 ctx)) <= phi_8_len ctx.
Proof.
  intros ctx.
  assert (HC : 0 <= C_H ctx) by (simpl; lia).
  assert (Hfit : C_H ctx * C_H ctx <= INT_MAX)
    by (vm_compute; discriminate).
  split; [exact HC|]. split; [exact Hfit|].
  exact (phi_8_array_long_enough path4 1 HC Hfit).
Defined.

Lemma small_arrays_long_enough_witness :
  let ctx := init_g_context path4 1 in
  1 <= C_H ctx /\ is_component ctx 1 /\
  (Z.of_nat (List.length (phi_3_1 ctx)) = C_H ctx - 1 /\
   C_H ctx - 1 <= phi_3_1_len ctx) /\
  (Z.of_nat (List.length (phi_3_1_disj ctx 1)) = C_H ctx - 1 /\
   C_H ctx - 1 <= phi_3_1_disj_len ctx) /\
  Z.of_nat (List.length (phi_4_1 ctx)) = phi_4_1_len ctx /\
  Z.of_nat (List.length (phi_4_1_disj ctx 0)) = phi_4_1_disj_len ctx /\
  (Z.of_nat (List.length (phi_7 ctx 2 1)) = Z.max 0 (N ctx - 1) /\
   Z.max 0 (N ctx - 1) <= phi_7_len ctx).
Proof.
  intros ctx.
  assert (HC : 1 <= C_H ctx) by (simpl; lia).
  assert (Hj : is_component ctx 1) by (unfold is_component; simpl; lia).
  split; [exact HC|]. split; [exact Hj|].
  exact (small_arrays_long_enough path4 1 1 2 1 0 HC Hj).
Defined.

Lemma EdgeConReduction_unsat_for_negative_cost_witness :
  getNumComponents path4 <= INT_MAX /\ - 2 ^ 31 <= -1 < 0 /\
  phi_5 (init_g_context path4 (-1)) = [] /\
  ~ satisfiable (EdgeConReduction path4 (-1)).
Proof.
  assert (HC : getNumComponents path4 <= INT_MAX)
    by (unfold INT_MAX; simpl; lia).
  assert (Hk : - 2 ^ 31 <= -1 < 0) by lia.
  split; [exact HC|]. split; [exact Hk|].
  exact (EdgeConReduction_unsat_for_negative_cost path4 (-1) HC Hk).
Defined.

Lemma EdgeConReduction_independent_of_cost_witness :
  1 <= getNumComponents path4 /\
  0 <= 0 < N (init_g_context path4 0) /\
  0 <= 1 < N (init_g_context path4 1) /\
  interp model_chain (EdgeConReduction path4 0)
  = interp model_chain (EdgeConReduction path4 1).
Proof.
  assert (HC : 1 <= getNumComponents path4) by (simpl; lia).
  assert (H0 : 0 <= 0 < N (init_g_context path4 0))
    by (change (N (init_g_context path4 0)) with 2; lia).
  assert (H1 : 0 <= 1 < N (init_g_context path4 1))
    by (change (N (init_g_context path4 1)) with 2; lia).
  split; [exact HC|]. split; [exact H0|]. split; [exact H1|].
  exact (EdgeConReduction_independent_of_cost model_chain path4 0 1
           HC H0 H1).
Defined.

Lemma decoder_at_most_one_call_per_edge_witness :
  well_sized path4 /\
  interp model_flat (EdgeConReduction path4 1) = true /\
  (count_calls (AddTranslator 0 1) (decoder_calls model_flat path4) <= 1)%nat.
Proof.
  assert (Hw : well_sized path4) by (unfold well_sized, INT_MAX; simpl; lia).
  assert (Hsat : interp model_flat (EdgeConReduction path4 1) = true)
    by (vm_compute; reflexivity).
  split; [exact Hw|]. split; [exact Hsat|].
  exact (decoder_at_most_one_call_per_edge model_flat path4 1 0 1 Hw Hsat).
Defined.

Lemma decoder_calls_within_budget_witness :
  well_sized path4 /\
  interp model_flat (EdgeConReduction path4 1) = true /\
  exists adds,
    decoder_calls model_flat path4
    = (adds ++ [ ComputesHomogeneousComponents ])%list /\
    count_calls ComputesHomogeneousComponents adds = 0%nat /\
    Z.of_nat (List.length adds) <= getNumComponents path4 - 1.
Proof.
  assert (Hw : well_sized path4) by (unfold well_sized, INT_MAX; simpl; lia).
  assert (Hsat : interp model_flat (EdgeConReduction path4 1) = true)
    by (vm_compute; reflexivity).
  split; [exact Hw|]. split; [exact Hsat|].
  exact (decoder_calls_within_budget model_flat path4 1 Hw Hsat).
Defined.

Lemma decoder_links_every_non_root_component_witness :
  let ctx := init_g_context path4 1 in
  well_sized path4 /\
  interp model_flat (EdgeConReduction path4 1) = true /\
  1 <= 2 < C_H ctx /\
  exists j1 u v,
    is_component ctx j1 /\ j1 <> 2 /\
    valueOfVarInModel model_flat (P_ 2 j1) = true /\
    crossing_edge ctx 2 j1 u v /\
    count_calls (AddTranslator u v) (decoder_calls model_flat path4) = 1%nat.
Proof.
  intros ctx.
  assert (Hw : well_sized path4) by (unfold well_sized, INT_MAX; simpl; lia).
  assert (Hsat : interp model_flat (EdgeConReduction path4 1) = true)
    by (vm_compute; reflexivity).
  assert (Hj : 1 <= 2 < C_H ctx) by (simpl; lia).
  split; [exact Hw|]. split; [exact Hsat|]. split; [exact Hj|].
  exact (decoder_links_every_non_root_component model_flat path4 1 2
           Hw Hsat Hj).
Defined.

Lemma decoder_reads_only_X_variables_witness :
  (forall n1 n2 i,
     0 <= n1 < n2 -> n2 < numNodes (getGraph path4) ->
     isEdge (getGraph path4) n1 n2 = true ->
     0 <= i < getNumComponents path4 - 1 ->
     valueOfVarInModel model_flat (getVariableIsIthTranslator n1 n2 i)
     = valueOfVarInModel model_chain (getVariableIsIthTranslator n1 n2 i)) /\
  getTranslatorSetFromModel model_flat path4 []
  = getTranslatorSetFromModel model_chain path4 [].
Proof.
  assert (Hagree : forall n1 n2 i,
     0 <= n1 < n2 -> n2 < numNodes (getGraph path4) ->
     isEdge (getGraph path4) n1 n2 = true ->
     0 <= i < getNumComponents path4 - 1 ->
     valueOfVarInModel model_flat (getVariableIsIthTranslator n1 n2 i)
     = valueOfVarInModel model_chain (getVariableIsIthTranslator n1 n2 i)).
  { intros n1 n2 i H1 H2 _ Hi. simpl in H2, Hi.
    assert (C1 : n1 = 0 \/ n1 = 1 \/ n1 = 2) by lia.
    assert (C2 : n2 = 1 \/ n2 = 2 \/ n2 = 3) by lia.
    assert (C3 : i = 0 \/ i = 1) by lia.
    destruct C1 as [-> | [-> | ->]], C2 as [-> | [-> | ->]],
             C3 as [-> | ->]; reflexivity. }
  split; [exact Hagree|].
  exact (decoder_reads_only_X_variables model_flat model_chain path4 []
           Hagree).
Defined.
